(** * Window::SystemMediaControlsManager

    A shallow embedding of
    [Telegram/SourceFiles/window/system_media_controls_manager.cpp]:
    the constructor that wires the media player to the platform's
    "now playing" controls, and the handlers it installs.

    The constructor body is a sequence of reactive subscriptions.  Each
    subscription is modelled as a value kept in the manager's [_lifetime];
    an event is one firing of a stream the constructor subscribes to, and
    is delivered to the installed subscriptions in subscription order.
    Every call made on the controls object, on the player and on the log
    is recorded in a trace. *)

From Stdlib Require Import List ZArith String Bool Lia.
Import ListNotations.

Set Implicit Arguments.

(** ** Declarations the file takes from its collaborators *)

(** [base::Platform::SystemMediaControls::PlaybackStatus], the three values
    the status mapping of lines 52-57 returns. *)
Inductive PlaybackStatus := Playing | Paused | Stopped.

(** Modelled from the spec: the enumeration
    [base::Platform::SystemMediaControls::Command] is declared in the
    platform header; its members are the six the [switch] of lines
    158-165 names, "one of {PlayPause, Play, Pause, Next, Previous, Stop}". *)
Module Command.
Inductive t := PlayPause | Play | Pause | Next | Previous | Stop.
End Command.

Definition PlaybackStatus_eqb (a b : PlaybackStatus) : bool :=
  match a, b with
  | Playing, Playing | Paused, Paused | Stopped, Stopped => true
  | _, _ => false
  end.

(** The types and functions of other translation units that the
    constructor uses.  They are kept abstract: the manager is verified
    for whatever the player, the data layer and the platform declare. *)
Class Collaborators := {
  (** Qt and platform value types. *)
  QWidget : Type;
  QImage : Type;
  Image : Type;
  original : Image -> QImage;
  float64 : Type;
  (** [Media::Player::State] and the two phase predicates. *)
  State : Type;
  IsStoppedOrStopping : State -> bool;
  IsPausedOrPausing : State -> bool;
  (** [AudioMsgId::Type] with its [==], and [AudioMsgId::Type::Song]. *)
  AudioType : Type;
  AudioType_eq_dec : forall a b : AudioType, {a = b} + {a <> b};
  Song : AudioType;
  (** [AudioMsgId]: [type()], [audio()], [contextId()] and
      [explicit operator bool]. *)
  FullMsgId : Type;
  DocumentData : Type;
  AudioMsgId : Type;
  AudioMsgId_type : AudioMsgId -> AudioType;
  audio : AudioMsgId -> option DocumentData;
  contextId : AudioMsgId -> FullMsgId;
  AudioMsgId_bool : AudioMsgId -> bool;
  (** [DocumentData]: [isSongWithCover()], [session()] and
      [createMediaView()]. *)
  Session : Type;
  Session_eq_dec : forall a b : Session, {a = b} + {a <> b};
  DocumentMedia : Type;
  isSongWithCover : DocumentData -> bool;
  session : DocumentData -> Session;
  createMediaView : DocumentData -> DocumentMedia;
  (** [Ui::Text::FormatSongNameFor(document).composedName()], a pair
      bound as [[title, performer]]; [document] may be a null pointer. *)
  composedName : option DocumentData -> string * string
}.

Section Manager.

Context {C : Collaborators}.

(** The fields of [Media::Player::TrackState] the constructor reads. *)
Record TrackState := {
  id : AudioMsgId;
  state : State;
  position : Z;
  length : Z
}.

(** What the collaborators answer when a handler queries them. *)
Record World := {
  (** [_controls->init(parent)] *)
  init : QWidget -> bool;
  (** [_controls->seekingSupported()] *)
  seekingSupported : bool;
  (** [mediaPlayer->nextAvailable(type)] *)
  nextAvailable : AudioType -> bool;
  (** [mediaPlayer->previousAvailable(type)] *)
  previousAvailable : AudioType -> bool;
  (** [mediaPlayer->current(type)] *)
  current : AudioType -> AudioMsgId;
  (** [view->thumbnail()], null until the cover is loaded *)
  thumbnail : DocumentMedia -> option Image;
  (** [Core::App().maybeActiveSession()] is not null *)
  maybeActiveSession : bool;
  (** the value held by the application's passcode-lock variable *)
  passcodeLocked : bool
}.

(** ** The trace *)

(** Methods of [base::Platform::SystemMediaControls] called on
    [_controls]. *)
Inductive ControlsCall :=
| Init (parent : QWidget)
| SeekingSupported
| CommandRequests
| SeekRequests
| SetPlaybackStatus (status : PlaybackStatus)
| SetPosition (position : Z)
| SetDuration (length : Z)
| SetEnabled (enabled : bool)
| SetIsNextEnabled (enabled : bool)
| SetIsPreviousEnabled (enabled : bool)
| SetIsPlayPauseEnabled (enabled : bool)
| SetIsStopEnabled (enabled : bool)
| UpdateDisplay
| SetArtist (artist : string)
| SetTitle (title : string)
| SetThumbnail (thumbnail : QImage)
| ClearThumbnail
| ClearMetadata.

(** Imperative calls on [Media::Player::instance()]. *)
Inductive PlayerCall :=
| playPause (type : AudioType)
| play (type : AudioType)
| pause (type : AudioType)
| next (type : AudioType)
| previous (type : AudioType)
| stop (type : AudioType)
| finishSeeking (type : AudioType) (progress : float64).

Inductive Effect :=
| Controls (call : ControlsCall)
| Player (call : PlayerCall)
| Log (line : string)
| ThumbnailWanted (view : DocumentMedia) (origin : FullMsgId).

(** ** The manager *)

(** One value per [rpl::start_with_next(..., _lifetime)] of the
    constructor.  The three pipelines that end in
    [rpl::distinct_until_changed()] carry the last value that operator
    let through. *)
Inductive Subscription :=
| StatusSub (last : option PlaybackStatus)   (* lines 49-61 *)
| PositionSub (last : option Z)              (* lines 64-70 *)
| DurationSub (last : option Z)              (* lines 72-78 *)
| StartStopSub                               (* lines 81-99 *)
| RefreshSub                                 (* lines 101-154 *)
| CommandSub                                 (* lines 156-166 *)
| SeekSub                                    (* lines 169-172 *)
| LockSub.                                   (* lines 175-180 *)

(** The subscription of lines 142-148, owned by [_lifetimeDownload]:
    the stream it listens to and the [view] its lambda captured. *)
Record DownloadSubscription := {
  dl_session : Session;
  dl_view : DocumentMedia
}.

Record Manager := {
  _lifetime : list Subscription;
  _lifetimeDownload : list DownloadSubscription;
  _cachedMediaView : list DocumentMedia
}.

(** The members before the constructor body runs. *)
Definition fresh : Manager :=
  {| _lifetime := []; _lifetimeDownload := []; _cachedMediaView := [] |}.

(** ** A state-and-trace monad for handler bodies *)

Definition Handler (A : Type) : Type := Manager -> A * Manager * list Effect.

Definition ret {A} (a : A) : Handler A := fun m => (a, m, []).

Definition bind {A B} (c : Handler A) (k : A -> Handler B) : Handler B :=
  fun m =>
    let '(a, m1, t1) := c m in
    let '(b, m2, t2) := k a m1 in
    (b, m2, t1 ++ t2).

Notation "x <- c ;; k" := (bind c (fun x => k))
  (at level 61, c at next level, right associativity).
Notation "c ;; k" := (bind c (fun _ => k))
  (at level 61, right associativity).

Definition emit (e : Effect) : Handler unit := fun m => (tt, m, [e]).
Definition controls (call : ControlsCall) : Handler unit := emit (Controls call).
Definition mediaPlayer (call : PlayerCall) : Handler unit := emit (Player call).

Definition after {A} (r : A * Manager * list Effect) : Manager := snd (fst r).
Definition trace {A} (r : A * Manager * list Effect) : list Effect := snd r.

(** [rpl::start_with_next(..., _lifetime)] *)
Definition subscribe (s : Subscription) : Handler unit :=
  fun m => (tt, {| _lifetime := _lifetime m ++ [s];
                   _lifetimeDownload := _lifetimeDownload m;
                   _cachedMediaView := _cachedMediaView m |}, []).

(** [rpl::start_with_next(..., _lifetimeDownload)] *)
Definition subscribeDownload (d : DownloadSubscription) : Handler unit :=
  fun m => (tt, {| _lifetime := _lifetime m;
                   _lifetimeDownload := _lifetimeDownload m ++ [d];
                   _cachedMediaView := _cachedMediaView m |}, []).

(** [_lifetimeDownload.destroy()] *)
Definition destroyLifetimeDownload : Handler unit :=
  fun m => (tt, {| _lifetime := _lifetime m;
                   _lifetimeDownload := [];
                   _cachedMediaView := _cachedMediaView m |}, []).

(** [_cachedMediaView.clear()] *)
Definition clearCachedMediaView : Handler unit :=
  fun m => (tt, {| _lifetime := _lifetime m;
                   _lifetimeDownload := _lifetimeDownload m;
                   _cachedMediaView := [] |}, []).

(** [_cachedMediaView.push_back(view)] *)
Definition pushCachedMediaView (view : DocumentMedia) : Handler unit :=
  fun m => (tt, {| _lifetime := _lifetime m;
                   _lifetimeDownload := _lifetimeDownload m;
                   _cachedMediaView := _cachedMediaView m ++ [view] |}, []).

Definition setLifetime (subs : list Subscription) : Handler unit :=
  fun m => (tt, {| _lifetime := subs;
                   _lifetimeDownload := _lifetimeDownload m;
                   _cachedMediaView := _cachedMediaView m |}, []).

(** ** The handlers *)

(** [const auto type = AudioMsgId::Type::Song;] (line 40) *)
Definition type : AudioType := Song.

Definition is_type (t : AudioType) : bool :=
  if AudioType_eq_dec t type then true else false.

(** [trackFilter] (lines 45-47) *)
Definition trackFilter (st : TrackState) : bool :=
  is_type (AudioMsgId_type (id st)).

(** The [rpl::map] of lines 50-58. *)
Definition mapStatus (st : TrackState) : PlaybackStatus :=
  if IsStoppedOrStopping (state st) then Stopped
  else if IsPausedOrPausing (state st) then Paused
  else Playing.

(** [rpl::distinct_until_changed()]: a value passes when there is no
    previous one or it differs from the previous one. *)
Definition changed {A} (eqb : A -> A -> bool) (last : option A) (v : A) : bool :=
  match last with
  | None => true
  | Some l => negb (eqb l v)
  end.

(** Conversion to the 32-bit [int] parameter of the lambdas of lines 68
    and 76. *)
Definition to_int (z : Z) : Z := ((z + 2 ^ 31) mod 2 ^ 32 - 2 ^ 31)%Z.

(** Lines 84-99; [audio] is [true] for [startsPlay(type)] and [false]
    for [stops(type)]. *)
Definition startStop (w : World) (isAudio : bool) : Handler unit :=
  controls (SetEnabled isAudio) ;;
  (if isAudio then
     controls (SetIsNextEnabled (nextAvailable w type)) ;;
     controls (SetIsPreviousEnabled (previousAvailable w type)) ;;
     controls (SetIsPlayPauseEnabled true) ;;
     controls (SetIsStopEnabled true) ;;
     controls (SetPlaybackStatus Playing) ;;
     controls UpdateDisplay
   else
     clearCachedMediaView ;;
     controls ClearMetadata) ;;
  destroyLifetimeDownload.

(** Lines 120-154, the consumer of the merged [trackChanged] and
    [unlocked] streams. *)
Definition refresh (w : World) (audioType : AudioType) : Handler unit :=
  destroyLifetimeDownload ;;
  let cur := current w audioType in
  if negb (AudioMsgId_bool cur) then ret tt
  else
    let document := audio cur in
    let '(title, performer) := composedName document in
    controls (SetArtist performer) ;;
    controls (SetTitle title) ;;
    match document with
    | Some doc =>
        if isSongWithCover doc then
          let view := createMediaView doc in
          emit (ThumbnailWanted view (contextId cur)) ;;
          pushCachedMediaView view ;;
          match thumbnail w view with
          | Some imagePtr => controls (SetThumbnail (original imagePtr))
          | None =>
              subscribeDownload {| dl_session := session doc; dl_view := view |} ;;
              controls ClearThumbnail
          end
        else controls ClearThumbnail
    | None => controls ClearThumbnail
    end.

(** Lines 107-115 followed by the merged consumer: the filter, the
    [rpl::map] to [type], and the [rpl::before_next] hook that runs
    ahead of the consumer. *)
Definition unlocked (w : World) (locked : bool) : Handler unit :=
  if negb locked && AudioMsgId_bool (current w type) then
    controls (SetEnabled true) ;;
    controls UpdateDisplay ;;
    refresh w type
  else ret tt.

(** Lines 101-105 followed by the merged consumer. *)
Definition trackChanged (w : World) (audioType : AudioType) : Handler unit :=
  if is_type audioType then refresh w audioType else ret tt.

(** Lines 157-166. *)
Definition command (c : Command.t) : Handler unit :=
  match c with
  | Command.PlayPause => mediaPlayer (playPause type)
  | Command.Play => mediaPlayer (play type)
  | Command.Pause => mediaPlayer (pause type)
  | Command.Next => mediaPlayer (next type)
  | Command.Previous => mediaPlayer (previous type)
  | Command.Stop => mediaPlayer (stop type)
  end.

(** Lines 170-172. *)
Definition seek (progress : float64) : Handler unit :=
  mediaPlayer (finishSeeking type progress).

(** Lines 175-180. *)
Definition lock (w : World) (locked : bool) : Handler unit :=
  if locked && maybeActiveSession w then controls (SetEnabled false)
  else ret tt.

(** Lines 143-148, run for every subscription [_lifetimeDownload]
    holds on the session whose downloader finished a task.  The
    [destroy()] of line 146 drops all of them, the running one
    included. *)
Fixpoint downloaderTaskFinished (w : World) (s : Session)
    (subs : list DownloadSubscription) : Handler unit :=
  match subs with
  | [] => ret tt
  | d :: rest =>
      if Session_eq_dec (dl_session d) s then
        match thumbnail w (dl_view d) with
        | Some imagePtr =>
            controls (SetThumbnail (original imagePtr)) ;;
            destroyLifetimeDownload
        | None => downloaderTaskFinished w s rest
        end
      else downloaderTaskFinished w s rest
  end.

(** ** Events *)

(** One firing of a stream the constructor subscribes to. *)
Inductive Event :=
| Updated (st : TrackState)               (* mediaPlayer->updatedNotifier() *)
| Stops (t : AudioType)                   (* mediaPlayer->stops(t) *)
| StartsPlay (t : AudioType)              (* mediaPlayer->startsPlay(t) *)
| TrackChanged (audioType : AudioType)    (* mediaPlayer->trackChangedNotifier() *)
| PasscodeLock (locked : bool)            (* the passcode-lock variable changes *)
| CommandRequest (c : Command.t)          (* _controls->commandRequests() *)
| SeekRequest (progress : float64)        (* _controls->seekRequests() *)
| DownloaderTaskFinished (s : Session).   (* session.downloaderTaskFinished() *)

(** Delivery of an event to one subscription of [_lifetime]; the
    subscription is returned with its [distinct_until_changed] memory
    updated.  [stops(type)] and [startsPlay(type)] carry the events of
    that type only.  A change of the passcode-lock variable reaches
    both [passcodeLockChanges()] and [passcodeLockValue()]. *)
Definition deliver (w : World) (e : Event) (s : Subscription)
    : Handler Subscription :=
  match s, e with
  | StatusSub last, Updated st =>
      if trackFilter st && changed PlaybackStatus_eqb last (mapStatus st) then
        controls (SetPlaybackStatus (mapStatus st)) ;;
        ret (StatusSub (Some (mapStatus st)))
      else ret s
  | PositionSub last, Updated st =>
      if trackFilter st && changed Z.eqb last (position st) then
        controls (SetPosition (to_int (position st))) ;;
        ret (PositionSub (Some (position st)))
      else ret s
  | DurationSub last, Updated st =>
      if trackFilter st && changed Z.eqb last (length st) then
        controls (SetDuration (to_int (length st))) ;;
        ret (DurationSub (Some (length st)))
      else ret s
  | StartStopSub, Stops t =>
      (if is_type t then startStop w false else ret tt) ;; ret s
  | StartStopSub, StartsPlay t =>
      (if is_type t then startStop w true else ret tt) ;; ret s
  | RefreshSub, TrackChanged audioType => trackChanged w audioType ;; ret s
  | RefreshSub, PasscodeLock locked => unlocked w locked ;; ret s
  | CommandSub, CommandRequest c => command c ;; ret s
  | SeekSub, SeekRequest progress => seek progress ;; ret s
  | LockSub, PasscodeLock locked => lock w locked ;; ret s
  | _, _ => ret s
  end.

Fixpoint dispatch (w : World) (e : Event) (subs : list Subscription)
    : Handler (list Subscription) :=
  match subs with
  | [] => ret []
  | s :: rest =>
      s' <- deliver w e s ;;
      rest' <- dispatch w e rest ;;
      ret (s' :: rest')
  end.

(** One event: the subscriptions of [_lifetime] in subscription order,
    then those of [_lifetimeDownload]. *)
Definition step (w : World) (e : Event) : Handler unit :=
  fun m =>
    (subs' <- dispatch w e (_lifetime m) ;;
     setLifetime subs' ;;
     match e with
     | DownloaderTaskFinished s =>
         fun m' => downloaderTaskFinished w s (_lifetimeDownload m') m'
     | _ => ret tt
     end) m.

Fixpoint run (evs : list (World * Event)) : Handler unit :=
  match evs with
  | [] => ret tt
  | (w, e) :: rest => step w e ;; run rest
  end.

(** ** The constructor (lines 27-182) *)

Definition failed_to_init : string := "SystemMediaControlsManager failed to init.".

(** [passcodeLockValue()] hands the variable's current value to its
    new subscriber before any change, hence the final [lock]. *)
Definition SystemMediaControlsManager (w : World) (parent : QWidget)
    : Handler unit :=
  controls (Init parent) ;;
  if negb (init w parent) then
    emit (Log failed_to_init)
  else
    subscribe (StatusSub None) ;;
    controls SeekingSupported ;;
    (if seekingSupported w then
       subscribe (PositionSub None) ;;
       subscribe (DurationSub None)
     else ret tt) ;;
    subscribe StartStopSub ;;
    subscribe RefreshSub ;;
    controls CommandRequests ;;
    subscribe CommandSub ;;
    controls SeekingSupported ;;
    (if seekingSupported w then
       controls SeekRequests ;;
       subscribe SeekSub
     else ret tt) ;;
    subscribe LockSub ;;
    lock w (passcodeLocked w).

End Manager.

(** ** A concrete set of collaborators *)

(** A small instance on which the handlers compute: two track types,
    documents that carry their cover flag, their session and their
    formatted name, and phases that are the three statuses themselves. *)
Module Sample.

Record Document := {
  cover : bool;
  owner : nat;
  name : string * string
}.

Inductive Kind := Music | VoiceMessage.

Record Track := {
  kind : Kind;
  document : option Document;
  context : nat
}.

Definition Kind_eq_dec (a b : Kind) : {a = b} + {a <> b}.
Proof. decide equality. Defined.

Definition name_of (d : option Document) : string * string :=
  match d with
  | Some doc => name doc
  | None => (EmptyString, EmptyString)
  end.

Definition is_valid (t : Track) : bool :=
  match document t with Some _ => true | None => false end.

Definition is_stopped (s : PlaybackStatus) : bool := PlaybackStatus_eqb s Stopped.
Definition is_paused (s : PlaybackStatus) : bool := PlaybackStatus_eqb s Paused.

End Sample.

#[export] Instance sample : Collaborators := {|
  QWidget := unit;
  QImage := nat;
  Image := nat;
  original := fun i => i;
  float64 := Z;
  State := PlaybackStatus;
  IsStoppedOrStopping := Sample.is_stopped;
  IsPausedOrPausing := Sample.is_paused;
  AudioType := Sample.Kind;
  AudioType_eq_dec := Sample.Kind_eq_dec;
  Song := Sample.Music;
  FullMsgId := nat;
  DocumentData := Sample.Document;
  AudioMsgId := Sample.Track;
  AudioMsgId_type := Sample.kind;
  audio := Sample.document;
  contextId := Sample.context;
  AudioMsgId_bool := Sample.is_valid;
  Session := nat;
  Session_eq_dec := Nat.eq_dec;
  DocumentMedia := Sample.Document;
  isSongWithCover := Sample.cover;
  session := Sample.owner;
  createMediaView := fun d => d;
  composedName := Sample.name_of
|}.

(** ** Observations on traces and histories *)

Section Observations.

Context {C : Collaborators}.

(** The members once the constructor has run on a fresh object. *)
Definition constructed (w0 : World) (parent : QWidget) : Manager :=
  after (SystemMediaControlsManager w0 parent fresh).

(** The members after the constructor and a history of events. *)
Definition manager_after (w0 : World) (parent : QWidget)
    (evs : list (World * Event)) : Manager :=
  after (run evs (constructed w0 parent)).

(** The subscriptions a successful constructor leaves in [_lifetime],
    in subscription order, with the memories of the three
    de-duplicating pipelines. *)
Definition wired (seeking : bool) (ls : option PlaybackStatus)
    (lp ld : option Z) : list Subscription :=
  StatusSub ls
    :: (if seeking then [PositionSub lp; DurationSub ld] else [])
    ++ StartStopSub :: RefreshSub :: CommandSub
    :: (if seeking then [SeekSub] else [])
    ++ [LockSub].

Definition installed (seeking : bool) (subs : list Subscription) : Prop :=
  exists ls lp ld, subs = wired seeking ls lp ld.

Definition controlsCalls (t : list Effect) : list ControlsCall :=
  flat_map (fun e => match e with Controls c => [c] | _ => [] end) t.

Definition statusCalls (t : list Effect) : list PlaybackStatus :=
  flat_map (fun e => match e with
                     | Controls (SetPlaybackStatus s) => [s]
                     | _ => []
                     end) t.

Definition positionCalls (t : list Effect) : list Z :=
  flat_map (fun e => match e with
                     | Controls (SetPosition p) => [p]
                     | _ => []
                     end) t.

Definition durationCalls (t : list Effect) : list Z :=
  flat_map (fun e => match e with
                     | Controls (SetDuration d) => [d]
                     | _ => []
                     end) t.

Definition seekCalls (t : list Effect) : list (AudioType * float64) :=
  flat_map (fun e => match e with
                     | Player (finishSeeking t p) => [(t, p)]
                     | _ => []
                     end) t.

(** The memory of the status pipeline's [distinct_until_changed]. *)
Definition statusMemory (m : Manager) : option PlaybackStatus :=
  match _lifetime m with
  | StatusSub last :: _ => last
  | _ => None
  end.

(** The player-state updates of a history that pass [trackFilter]. *)
Definition managedUpdates (evs : list (World * Event)) : list TrackState :=
  flat_map (fun we => match snd we with
                      | Updated st => if trackFilter st then [st] else []
                      | _ => []
                      end) evs.

(** A list with runs of equal neighbours collapsed, given the value
    that came before it. *)
Fixpoint distinct_from {A} (eqb : A -> A -> bool) (last : option A)
    (l : list A) : list A :=
  match l with
  | [] => []
  | x :: rest =>
      if changed eqb last x then x :: distinct_from eqb (Some x) rest
      else distinct_from eqb last rest
  end.

Definition distinct {A} (eqb : A -> A -> bool) (l : list A) : list A :=
  distinct_from eqb None l.

Fixpoint no_adjacent_equal {A} (l : list A) : Prop :=
  match l with
  | x :: ((y :: _) as rest) => x <> y /\ no_adjacent_equal rest
  | _ => True
  end.

(** What [rpl::distinct_until_changed()] remembers and lets through
    for one value [v] that reached it ([pass]) or was filtered out. *)
Definition keep {A} (eqb : A -> A -> bool) (pass : bool) (last : option A)
    (v : A) : option A :=
  if pass && changed eqb last v then Some v else last.

Definition through {A} (eqb : A -> A -> bool) (pass : bool) (last : option A)
    (v : A) : list A :=
  if pass && changed eqb last v then [v] else [].

(** The seek requests of a history. *)
Definition seekRequests (evs : list (World * Event)) : list float64 :=
  flat_map (fun we => match snd we with
                      | SeekRequest p => [p]
                      | _ => []
                      end) evs.

(** A history made of player-state updates only. *)
Definition updatesOnly (sts : list (World * TrackState)) : list (World * Event) :=
  map (fun ws => (fst ws, Updated (snd ws))) sts.

(** A history made of firings of one session's
    [downloaderTaskFinished()]. *)
Definition firings (s : Session) (ws : list World) : list (World * Event) :=
  map (fun w => (w, DownloaderTaskFinished s)) ws.

(** The image found by the first pending subscription on session [s]
    whose view has a thumbnail in [w]. *)
Fixpoint resolvedFor (w : World) (s : Session)
    (subs : list DownloadSubscription) : option Image :=
  match subs with
  | [] => None
  | d :: rest =>
      if Session_eq_dec (dl_session d) s then
        match thumbnail w (dl_view d) with
        | Some imagePtr => Some imagePtr
        | None => resolvedFor w s rest
        end
      else resolvedFor w s rest
  end.

(** The image pushed by a run of firings: the one found at the first
    firing where a pending subscription finds its thumbnail. *)
Fixpoint firstResolution (s : Session) (subs : list DownloadSubscription)
    (ws : list World) : option Image :=
  match ws with
  | [] => None
  | w :: rest =>
      match resolvedFor w s subs with
      | Some imagePtr => Some imagePtr
      | None => firstResolution s subs rest
      end
  end.

(** The views a refresh asks a thumbnail for in world [w]. *)
Definition requestedViews (w : World) : list DocumentMedia :=
  if AudioMsgId_bool (current w Song) then
    match audio (current w Song) with
    | Some doc => if isSongWithCover doc then [createMediaView doc] else []
    | None => []
    end
  else [].

End Observations.

(** ** Scenarios on the concrete collaborators *)

Module Scenario.

Definition cover_song : Sample.Document :=
  {| Sample.cover := true; Sample.owner := 0%nat;
     Sample.name := ("Title"%string, "Performer"%string) |}.

Definition other_song : Sample.Document :=
  {| Sample.cover := true; Sample.owner := 0%nat;
     Sample.name := ("Other"%string, "Performer"%string) |}.

Definition plain_song : Sample.Document :=
  {| Sample.cover := false; Sample.owner := 0%nat;
     Sample.name := ("Plain"%string, "Performer"%string) |}.

Definition track (d : option Sample.Document) : Sample.Track :=
  {| Sample.kind := Sample.Music; Sample.document := d; Sample.context := 7%nat |}.

(** A world where [init] answers [ok], seeking is [seeking], the
    current track plays [cur], and covers are loaded or not. *)
Definition world (ok seeking : bool) (cur : option Sample.Document)
    (loaded : bool) : World :=
  {| init := fun _ => ok;
     seekingSupported := seeking;
     nextAvailable := fun _ => true;
     previousAvailable := fun _ => false;
     current := fun _ => track cur;
     thumbnail := fun _ => if loaded then Some 42%nat else None;
     maybeActiveSession := true;
     passcodeLocked := false |}.

Definition playing (p l : Z) : TrackState :=
  {| id := track (Some cover_song); state := Playing;
     position := p; length := l |}.

Definition paused (p l : Z) : TrackState :=
  {| id := track (Some cover_song); state := Paused;
     position := p; length := l |}.

Definition voice (p l : Z) : TrackState :=
  {| id := {| Sample.kind := Sample.VoiceMessage;
              Sample.document := None; Sample.context := 1%nat |};
     state := Playing; position := p; length := l |}.

(** Histories used below. *)
Definition here : World := world true true (Some cover_song) false.
Definition loaded : World := world true true (Some cover_song) true.
Definition elsewhere : World := world true true (Some other_song) false.
Definition unsupported : World := world true false (Some cover_song) false.
Definition broken : World := world false true (Some cover_song) true.
Definition plain : World := world true true (Some plain_song) false.
Definition idle : World := world true true None false.

Definition busy : list (World * Event) :=
  [(here, StartsPlay Sample.Music);
   (here, Updated (playing 0 100));
   (here, TrackChanged Sample.Music);
   (here, Updated (playing 1 100));
   (here, SeekRequest 3%Z);
   (loaded, DownloaderTaskFinished 0%nat);
   (here, CommandRequest Command.Pause);
   (here, Updated (paused 1 100));
   (here, PasscodeLock true);
   (here, PasscodeLock false)].

Definition requested : list (World * Event) :=
  [(here, TrackChanged Song)].
Definition resolved : list (World * Event) :=
  requested ++ [(loaded, DownloaderTaskFinished 0%nat)].
Definition superseded : list (World * Event) :=
  resolved ++ [(elsewhere, TrackChanged Song)].


Definition updates : list (World * TrackState) :=
  [(here, playing 0 100); (here, playing 1 100); (here, voice 5 5);
   (here, paused 1 100); (here, paused 1 100); (here, playing 2 100)].

End Scenario.

(** ** Further observations *)

Section FurtherObservations.

Context {C : Collaborators}.

Definition enabledCalls (t : list Effect) : list bool :=
  flat_map (fun e => match e with
                     | Controls (SetEnabled b) => [b]
                     | _ => []
                     end) t.

Definition playerCalls (t : list Effect) : list PlayerCall :=
  flat_map (fun e => match e with Player c => [c] | _ => [] end) t.

(** The [AudioMsgId::Type] argument of a player call. *)
Definition playerType (c : PlayerCall) : AudioType :=
  match c with
  | playPause t | play t | pause t | next t | previous t | stop t
  | finishSeeking t _ => t
  end.

(** The command requests of a history. *)
Definition commandRequests (evs : list (World * Event)) : list Command.t :=
  flat_map (fun we => match snd we with
                      | CommandRequest c => [c]
                      | _ => []
                      end) evs.

(** A history of downloader firings, each in its world and for its
    session. *)
Definition downloads (fs : list (World * Session)) : list (World * Event) :=
  map (fun f => (fst f, DownloaderTaskFinished (snd f))) fs.

(** The last element of a list, if any. *)
Definition latest {A} (l : list A) : option A :=
  fold_left (fun _ x => Some x) l None.

(** The 32-bit [int] range. *)
Definition fits_int (z : Z) : Prop := (- 2 ^ 31 <= z < 2 ^ 31)%Z.

End FurtherObservations.

(** ** Further scenarios *)

Module Further.

(** [Scenario.busy] without its opening playback start. *)
Definition calm : list (World * Event) := tl Scenario.busy.

(** A world with no active session. *)
Definition signed_out : World :=
  {| init := fun _ => true;
     seekingSupported := true;
     nextAvailable := fun _ => true;
     previousAvailable := fun _ => false;
     current := fun _ => Scenario.track (Some Scenario.cover_song);
     thumbnail := fun _ => None;
     maybeActiveSession := false;
     passcodeLocked := false |}.

(** Downloader firings of two sessions with every cover loaded. *)
Definition late : list (World * Session) :=
  [(Scenario.loaded, 0%nat); (Scenario.loaded, 1%nat)].

End Further.

(** ** Properties *)

Unset Implicit Arguments.

Section Properties.

Context {C : Collaborators}.

(** Unfolds the monad and the member updates. *)
Ltac unfold_monad :=
  unfold trackChanged, unlocked, refresh, startStop, command, seek, lock,
    bind, ret, controls, mediaPlayer, emit, subscribe, subscribeDownload,
    destroyLifetimeDownload, clearCachedMediaView, pushCachedMediaView,
    setLifetime, after, trace; cbn.

(** Splits on the first test a goal is stuck on. *)
Ltac split_test :=
  match goal with
  | |- context [if negb ?b then _ else _] => destruct b eqn:?
  | |- context [if ?b then _ else _] => destruct b eqn:?
  | |- context [match ?x with Some _ => _ | None => _ end] => destruct x eqn:?
  | |- context [composedName ?x] => destruct (composedName x) eqn:?
  end.

Ltac run_handler := unfold_monad; repeat (split_test; unfold_monad).

Lemma downloaderTaskFinished_eq w s subs l d c :
  downloaderTaskFinished w s subs
    {| _lifetime := l; _lifetimeDownload := d; _cachedMediaView := c |}
  = match resolvedFor w s subs with
    | Some imagePtr =>
        (tt, {| _lifetime := l; _lifetimeDownload := []; _cachedMediaView := c |},
         [Controls (SetThumbnail (original imagePtr))])
    | None =>
        (tt, {| _lifetime := l; _lifetimeDownload := d; _cachedMediaView := c |},
         [])
    end.
Proof.
  induction subs as [|x rest IH]; cbn; [reflexivity|].
  destruct (Session_eq_dec (dl_session x) s); [|exact IH].
  destruct (thumbnail w (dl_view x)); [reflexivity|exact IH].
Qed.

Lemma is_type_type : is_type type = true.
Proof. unfold is_type. destruct (AudioType_eq_dec type type); congruence. Qed.

Lemma step_installed seeking w e m :
  installed seeking (_lifetime m) ->
  installed seeking (_lifetime (after (step w e m))).
Proof.
  intros (ls & lp & ld & H). destruct m as [l d c]. cbn in H. subst l.
  unfold installed.
  destruct seeking, e as [st|t|t|t|b|[]|p|s]; unfold step, wired; cbn.
  all: try (run_handler; eauto; fail).
  all: unfold bind, ret, setLifetime; cbn;
    rewrite downloaderTaskFinished_eq;
    destruct (resolvedFor w s d); cbn; eauto.
Qed.

Lemma constructed_eq w0 parent :
  init w0 parent = true ->
  constructed w0 parent =
    {| _lifetime := wired (seekingSupported w0) None None None;
       _lifetimeDownload := [];
       _cachedMediaView := [] |}.
Proof.
  intros H. unfold constructed, SystemMediaControlsManager, wired.
  unfold bind at 1. cbn. rewrite H. cbn.
  destruct (seekingSupported w0); run_handler; try congruence; reflexivity.
Qed.

Lemma constructed_installed w0 parent :
  init w0 parent = true ->
  installed (seekingSupported w0) (_lifetime (constructed w0 parent)).
Proof.
  intros H. rewrite (constructed_eq _ _ H). cbn.
  exists None, None, None. reflexivity.
Qed.

Lemma run_installed seeking evs : forall m,
  installed seeking (_lifetime m) ->
  installed seeking (_lifetime (after (run evs m))).
Proof.
  induction evs as [|[w e] rest IH]; intros m H; [exact H|].
  cbn. unfold bind.
  pose proof (step_installed seeking w e m H) as H1. revert H1. 
  destruct (step w e m) as [[[] m1] t1]. cbn. intros H1.
  specialize (IH m1 H1). destruct (run rest m1) as [[[] m2] t2]. exact IH.
Qed.

Lemma manager_after_installed w0 parent evs :
  init w0 parent = true ->
  installed (seekingSupported w0) (_lifetime (manager_after w0 parent evs)).
Proof.
  intros H. apply run_installed, constructed_installed, H.
Qed.


Lemma step_Updated seeking ls lp ld d c w st :
  step w (Updated st)
    {| _lifetime := wired seeking ls lp ld;
       _lifetimeDownload := d; _cachedMediaView := c |}
  = (tt,
     {| _lifetime :=
          wired seeking
            (keep PlaybackStatus_eqb (trackFilter st) ls (mapStatus st))
            (keep Z.eqb (trackFilter st) lp (position st))
            (keep Z.eqb (trackFilter st) ld (length st));
        _lifetimeDownload := d; _cachedMediaView := c |},
     map (fun s => Controls (SetPlaybackStatus s))
         (through PlaybackStatus_eqb (trackFilter st) ls (mapStatus st))
     ++ (if seeking then
           map (fun p => Controls (SetPosition (to_int p)))
               (through Z.eqb (trackFilter st) lp (position st))
           ++ map (fun p => Controls (SetDuration (to_int p)))
               (through Z.eqb (trackFilter st) ld (length st))
         else [])).
Proof.
  unfold keep, through, step, wired.
  destruct seeking; cbn; run_handler; try congruence; reflexivity.
Qed.

(** Every event but a player-state update leaves the three memories
    alone and calls neither [setPosition] nor [setDuration]; only a
    supported seek request calls [finishSeeking]; [_cachedMediaView] is
    emptied by a stop of the managed type and otherwise only grows. *)
Lemma step_other seeking ls lp ld d c w e :
  (forall st, e <> Updated st) ->
  exists d' c' t,
    step w e {| _lifetime := wired seeking ls lp ld;
                _lifetimeDownload := d; _cachedMediaView := c |}
    = (tt, {| _lifetime := wired seeking ls lp ld;
              _lifetimeDownload := d'; _cachedMediaView := c' |}, t)
    /\ positionCalls t = []
    /\ durationCalls t = []
    /\ seekCalls t
       = (if seeking then map (pair Song) (seekRequests [(w, e)]) else [])
    /\ (match e with
        | Stops t0 => if is_type t0 then c' = [] else c' = c
        | DownloaderTaskFinished _ => c' = c
        | _ => exists extra, c' = c ++ extra
        end).
Proof.
  intros Hne.
  destruct seeking, e as [st|t0|t0|t0|b|[]|p|s]; unfold step, wired; cbn.
  all: try (exfalso; exact (Hne _ eq_refl)).
  all: try (run_handler; do 3 eexists; repeat split;
            first [ exists []; symmetry; apply app_nil_r
                  | eexists; reflexivity ]; fail).
  all: unfold bind, ret, setLifetime; cbn;
    rewrite downloaderTaskFinished_eq;
    destruct (resolvedFor w s d); cbn;
    do 3 eexists; repeat split; reflexivity.
Qed.



Lemma trace_mk {A} (a : A) (m : Manager) (t : list Effect) :
  trace (a, m, t) = t.
Proof. reflexivity. Qed.

Lemma after_mk {A} (a : A) (m : Manager) (t : list Effect) :
  after (a, m, t) = m.
Proof. reflexivity. Qed.

Ltac tuples := repeat (rewrite trace_mk || rewrite after_mk).

Lemma run_cons w e rest m :
  run ((w, e) :: rest) m
  = (tt, after (run rest (after (step w e m))),
     trace (step w e m) ++ trace (run rest (after (step w e m)))).
Proof.
  cbn. unfold bind, after, trace.
  destruct (step w e m) as [[[] m1] t1]. cbn.
  destruct (run rest m1) as [[[] m2] t2]. reflexivity.
Qed.

Lemma distinct_from_step {A B} (eqb : B -> B -> bool) (g : A -> B)
    (pass : bool) (x : A) (rest : list A) (last : option B) :
  distinct_from eqb last (map g ((if pass then [x] else []) ++ rest))
  = through eqb pass last (g x)
    ++ distinct_from eqb (keep eqb pass last (g x)) (map g rest).
Proof.
  unfold through, keep. destruct pass; cbn; [|reflexivity].
  destruct (changed eqb last (g x)); reflexivity.
Qed.

Lemma distinct_from_no_adjacent {A} (eqb : A -> A -> bool) :
  (forall a b, eqb a b = true <-> a = b) ->
  forall l last,
    no_adjacent_equal (distinct_from eqb last l)
    /\ (hd_error (distinct_from eqb last l) = None
        \/ hd_error (distinct_from eqb last l) <> last).
Proof.
  intros Heq. induction l as [|x rest IH]; intros last; cbn.
  - split; [exact I | now left].
  - destruct (changed eqb last x) eqn:Hc.
    + destruct (IH (Some x)) as [Hn Hh]. split.
      * cbn. destruct (distinct_from eqb (Some x) rest) as [|y tl] eqn:Hd;
          [exact I|].
        split; [|exact Hn].
        destruct Hh as [Hh|Hh]; [discriminate Hh|].
        intros ->. apply Hh. reflexivity.
      * right. cbn. destruct last as [l0|]; [|discriminate].
        cbn in Hc. intros E. injection E as ->.
        destruct (eqb l0 l0) eqn:El; [discriminate Hc|].
        assert (eqb l0 l0 = true) by (apply Heq; reflexivity). congruence.
    + apply IH.
Qed.

Lemma PlaybackStatus_eqb_eq a b : PlaybackStatus_eqb a b = true <-> a = b.
Proof. destruct a, b; cbn; split; congruence. Qed.

Lemma statusCalls_app t1 t2 :
  statusCalls (t1 ++ t2) = statusCalls t1 ++ statusCalls t2.
Proof. apply flat_map_app. Qed.

Lemma positionCalls_app t1 t2 :
  positionCalls (t1 ++ t2) = positionCalls t1 ++ positionCalls t2.
Proof. apply flat_map_app. Qed.

Lemma durationCalls_app t1 t2 :
  durationCalls (t1 ++ t2) = durationCalls t1 ++ durationCalls t2.
Proof. apply flat_map_app. Qed.

Lemma seekCalls_app t1 t2 :
  seekCalls (t1 ++ t2) = seekCalls t1 ++ seekCalls t2.
Proof. apply flat_map_app. Qed.

Ltac proj_ind :=
  unfold statusCalls, positionCalls, durationCalls, seekCalls in *;
  cbn in *; congruence.

(** What each projection sees in the trace of a player-state update. *)
Lemma update_trace_projections (seeking : bool) (ss : list PlaybackStatus) (ps ds : list Z) :
  let t := map (fun s => Controls (SetPlaybackStatus s)) ss
           ++ (if seeking then
                 map (fun p => Controls (SetPosition (to_int p))) ps
                 ++ map (fun p => Controls (SetDuration (to_int p))) ds
               else []) in
  statusCalls t = ss
  /\ positionCalls t = (if seeking then map to_int ps else [])
  /\ durationCalls t = (if seeking then map to_int ds else [])
  /\ seekCalls t = [].
Proof.
  cbv zeta.
  rewrite statusCalls_app, positionCalls_app, durationCalls_app, seekCalls_app.
  assert (S1 : forall l, statusCalls (map (fun s => Controls (SetPlaybackStatus s)) l) = l)
    by (induction l; proj_ind).
  assert (S2 : forall l, positionCalls (map (fun s => Controls (SetPlaybackStatus s)) l) = [])
    by (induction l; proj_ind).
  assert (S3 : forall l, durationCalls (map (fun s => Controls (SetPlaybackStatus s)) l) = [])
    by (induction l; proj_ind).
  assert (S4 : forall l, seekCalls (map (fun s => Controls (SetPlaybackStatus s)) l) = [])
    by (induction l; proj_ind).
  rewrite S1, S2, S3, S4.
  destruct seeking; cbn; [|rewrite app_nil_r; repeat split; reflexivity].
  rewrite statusCalls_app, positionCalls_app, durationCalls_app, seekCalls_app.
  assert (P1 : forall l, statusCalls (map (fun p => Controls (SetPosition (to_int p))) l) = [])
    by (induction l; proj_ind).
  assert (P2 : forall l, positionCalls (map (fun p => Controls (SetPosition (to_int p))) l) = map to_int l)
    by (induction l; proj_ind).
  assert (P3 : forall l, durationCalls (map (fun p => Controls (SetPosition (to_int p))) l) = [])
    by (induction l; proj_ind).
  assert (P4 : forall l, seekCalls (map (fun p => Controls (SetPosition (to_int p))) l) = [])
    by (induction l; proj_ind).
  assert (D1 : forall l, statusCalls (map (fun p => Controls (SetDuration (to_int p))) l) = [])
    by (induction l; proj_ind).
  assert (D2 : forall l, positionCalls (map (fun p => Controls (SetDuration (to_int p))) l) = [])
    by (induction l; proj_ind).
  assert (D3 : forall l, durationCalls (map (fun p => Controls (SetDuration (to_int p))) l) = map to_int l)
    by (induction l; proj_ind).
  assert (D4 : forall l, seekCalls (map (fun p => Controls (SetDuration (to_int p))) l) = [])
    by (induction l; proj_ind).
  rewrite P1, P2, P3, P4, D1, D2, D3, D4, !app_nil_r. repeat split; reflexivity.
Qed.

(** Over any history, [setPosition] and [setDuration] receive the
    de-duplicated positions and lengths of the managed updates, and
    [finishSeeking] the seek requests, when seeking is wired; none of
    the three is called when it is not. *)
Lemma run_seeking seeking evs : forall ls lp ld d c,
  let r := run evs {| _lifetime := wired seeking ls lp ld;
                      _lifetimeDownload := d; _cachedMediaView := c |} in
  positionCalls (trace r)
    = (if seeking then
         map to_int (distinct_from Z.eqb lp (map position (managedUpdates evs)))
       else [])
  /\ durationCalls (trace r)
    = (if seeking then
         map to_int (distinct_from Z.eqb ld (map length (managedUpdates evs)))
       else [])
  /\ seekCalls (trace r)
    = (if seeking then map (pair Song) (seekRequests evs) else []).
Proof.
  induction evs as [|[w e] rest IH]; intros ls lp ld d c; cbv zeta.
  - cbn. destruct seeking; repeat split; reflexivity.
  - rewrite run_cons. tuples.
    rewrite positionCalls_app, durationCalls_app, seekCalls_app.
    assert (U : (exists st, e = Updated st) \/ (forall st, e <> Updated st)).
    { destruct e; try (right; intros; discriminate). left. eauto. }
    destruct U as [[st ->]|Hne].
    + rewrite step_Updated. tuples.
      destruct (update_trace_projections seeking
                  (through PlaybackStatus_eqb (trackFilter st) ls (mapStatus st))
                  (through Z.eqb (trackFilter st) lp (position st))
                  (through Z.eqb (trackFilter st) ld (length st)))
        as (_ & -> & -> & ->).
      destruct (IH (keep PlaybackStatus_eqb (trackFilter st) ls (mapStatus st))
                   (keep Z.eqb (trackFilter st) lp (position st))
                   (keep Z.eqb (trackFilter st) ld (length st)) d c)
        as (-> & -> & ->).
      unfold managedUpdates, seekRequests. cbn [flat_map snd].
      fold (managedUpdates rest). fold (seekRequests rest).
      rewrite !distinct_from_step.
      destruct seeking; rewrite ?map_app; repeat split; reflexivity.
    + destruct (step_other seeking ls lp ld d c w e Hne)
        as (d' & c' & t & Hs & Hp & Hd & Hk & _).
      rewrite Hs. tuples. rewrite Hp, Hd, Hk.
      destruct (IH ls lp ld d' c') as (-> & -> & ->).
      assert (M : managedUpdates ((w, e) :: rest) = managedUpdates rest).
      { unfold managedUpdates. cbn [flat_map snd].
        destruct e; try reflexivity. exfalso. exact (Hne _ eq_refl). }
      rewrite M.
      destruct seeking; cbn [app]; repeat split; try reflexivity.
      unfold seekRequests. cbn [flat_map snd]. rewrite app_nil_r, map_app.
      reflexivity.
Qed.

(** Exposes the members of a manager whose constructor succeeded. *)
Ltac expose H :=
  match type of H with
  | init ?w0 ?parent = true =>
      match goal with
      | |- context [manager_after w0 parent ?evs] =>
          generalize (manager_after_installed w0 parent evs H);
          generalize (manager_after w0 parent evs);
          let l := fresh "l" in
          let Hl := fresh "Hl" in
          intros [l ?d ?c] (?ls & ?lp & ?ld & Hl); cbn in Hl; subst l
      end
  end.

Lemma run_fresh evs : run evs fresh = (tt, fresh, []).
Proof.
  induction evs as [|[w e] rest IH]; [reflexivity|].
  cbn. unfold bind.
  replace (step w e fresh) with (tt, fresh, @nil Effect).
  - rewrite IH. reflexivity.
  - destruct e; reflexivity.
Qed.

(** C1. When [_controls->init(parent)] returns false the constructor
    calls [init], writes one log line and returns: [_lifetime] and
    [_lifetimeDownload] stay empty, and no later history of events
    produces any call on the controls, on the player or anywhere
    else. *)
Theorem init_failure_is_inert w0 parent :
  init w0 parent = false ->
  trace (SystemMediaControlsManager w0 parent fresh)
    = [Controls (Init parent); Log failed_to_init]
  /\ forall evs,
       trace (run evs (constructed w0 parent)) = []
       /\ _lifetime (manager_after w0 parent evs) = []
       /\ _lifetimeDownload (manager_after w0 parent evs) = [].
Proof.
  intros H.
  assert (E : SystemMediaControlsManager w0 parent fresh
              = (tt, fresh, [Controls (Init parent); Log failed_to_init])).
  { unfold SystemMediaControlsManager. unfold bind at 1. cbn.
    rewrite H. reflexivity. }
  split; [rewrite E; reflexivity|].
  intros evs. unfold manager_after, constructed. rewrite E. cbn.
  rewrite run_fresh. repeat split.
Qed.

(** C2. Once the constructor has succeeded, after any history, a
    command from the controls produces exactly one call, the player
    method of the same name on [AudioMsgId::Type::Song], and leaves
    the manager as it was. *)
Theorem command_routing w0 parent evs w :
  init w0 parent = true ->
  let m := manager_after w0 parent evs in
  step w (CommandRequest Command.PlayPause) m = (tt, m, [Player (playPause Song)])
  /\ step w (CommandRequest Command.Play) m = (tt, m, [Player (play Song)])
  /\ step w (CommandRequest Command.Pause) m = (tt, m, [Player (pause Song)])
  /\ step w (CommandRequest Command.Next) m = (tt, m, [Player (next Song)])
  /\ step w (CommandRequest Command.Previous) m = (tt, m, [Player (previous Song)])
  /\ step w (CommandRequest Command.Stop) m = (tt, m, [Player (stop Song)]).
Proof.
  intros H m. subst m. expose H.
  destruct (seekingSupported w0); repeat split.
Qed.

(** C4. A playback start of the managed type enables the widget, sets
    the next and previous flags from the player's queries, sets the
    play-pause and stop flags, sets the status to Playing and asks for
    a display refresh; a playback stop disables the widget, empties
    [_cachedMediaView] and clears the metadata; both destroy
    [_lifetimeDownload]. *)
Theorem start_and_stop_transitions w0 parent evs w :
  init w0 parent = true ->
  let m := manager_after w0 parent evs in
  let started := step w (StartsPlay Song) m in
  let stopped := step w (Stops Song) m in
  trace started
    = [Controls (SetEnabled true);
       Controls (SetIsNextEnabled (nextAvailable w Song));
       Controls (SetIsPreviousEnabled (previousAvailable w Song));
       Controls (SetIsPlayPauseEnabled true);
       Controls (SetIsStopEnabled true);
       Controls (SetPlaybackStatus Playing);
       Controls UpdateDisplay]
  /\ _lifetimeDownload (after started) = []
  /\ _cachedMediaView (after started) = _cachedMediaView m
  /\ trace stopped = [Controls (SetEnabled false); Controls ClearMetadata]
  /\ _cachedMediaView (after stopped) = []
  /\ _lifetimeDownload (after stopped) = [].
Proof.
  intros H m started stopped. subst started stopped m. expose H.
  pose proof is_type_type as T. unfold type in T.
  destruct (seekingSupported w0); unfold step; cbn; rewrite T;
    repeat split.
Qed.

(** C7. When the passcode lock changes to unlocked and the player has
    a current track of the managed type, the widget is enabled and a
    display refresh is requested first, and what follows is exactly
    what a track change of the managed type does in the same state. *)
Theorem unlock_enables_then_refreshes w0 parent evs w :
  init w0 parent = true ->
  AudioMsgId_bool (current w Song) = true ->
  let m := manager_after w0 parent evs in
  step w (PasscodeLock false) m
  = (tt, after (step w (TrackChanged Song) m),
     Controls (SetEnabled true) :: Controls UpdateDisplay
       :: trace (step w (TrackChanged Song) m)).
Proof.
  intros H Hc m. subst m. expose H.
  pose proof is_type_type as T. unfold type in T.
  destruct (seekingSupported w0); unfold step; cbn;
    unfold trackChanged, unlocked, refresh, type; rewrite T, Hc;
    run_handler; try congruence; reflexivity.
Qed.

(** C8. When the passcode lock changes to locked while a session is
    active, the only call made is [setEnabled(false)], and the manager
    is left as it was. *)
Theorem lock_disables_widget w0 parent evs w :
  init w0 parent = true ->
  maybeActiveSession w = true ->
  let m := manager_after w0 parent evs in
  step w (PasscodeLock true) m = (tt, m, [Controls (SetEnabled false)]).
Proof.
  intros H Hs m. subst m. expose H.
  destruct (seekingSupported w0); unfold step; cbn;
    unfold lock; rewrite Hs; reflexivity.
Qed.


Lemma run_updatesOnly_status seeking sts : forall ls lp ld d c,
  statusCalls
    (trace (run (updatesOnly sts)
              {| _lifetime := wired seeking ls lp ld;
                 _lifetimeDownload := d; _cachedMediaView := c |}))
  = distinct_from PlaybackStatus_eqb ls
      (map mapStatus (filter trackFilter (map snd sts))).
Proof.
  induction sts as [|[w st] rest IH]; intros ls lp ld d c; [reflexivity|].
  unfold updatesOnly. cbn [map fst snd]. fold (updatesOnly rest).
  rewrite run_cons, step_Updated. tuples. rewrite statusCalls_app.
  destruct (update_trace_projections seeking
              (through PlaybackStatus_eqb (trackFilter st) ls (mapStatus st))
              (through Z.eqb (trackFilter st) lp (position st))
              (through Z.eqb (trackFilter st) ld (length st)))
    as (-> & _).
  rewrite IH.
  replace (filter trackFilter (st :: map snd rest))
    with ((if trackFilter st then [st] else [])
          ++ filter trackFilter (map snd rest))
    by (cbn; destruct (trackFilter st); reflexivity).
  rewrite distinct_from_step. reflexivity.
Qed.

(** C3. In a run of player-state updates only the updates of the
    managed type count; each is mapped to Stopped, Paused or Playing
    by the two phase predicates; and [setPlaybackStatus] receives that
    sequence with repetitions of the value remembered by
    [distinct_until_changed] removed, so no two calls in a row carry
    the same status and the first differs from the remembered one.
    The memory is empty when the constructor returns. *)
Theorem status_updates_are_deduplicated w0 parent evs sts :
  init w0 parent = true ->
  let m := manager_after w0 parent evs in
  let pushed := statusCalls (trace (run (updatesOnly sts) m)) in
  pushed
    = distinct_from PlaybackStatus_eqb (statusMemory m)
        (map (fun st => if IsStoppedOrStopping (state st) then Stopped
                        else if IsPausedOrPausing (state st) then Paused
                        else Playing)
           (filter (fun st =>
                      if AudioType_eq_dec (AudioMsgId_type (id st)) Song
                      then true else false)
              (map snd sts)))
  /\ no_adjacent_equal pushed
  /\ (hd_error pushed = None \/ hd_error pushed <> statusMemory m)
  /\ statusMemory (constructed w0 parent) = None.
Proof.
  intros H m pushed. subst pushed m.
  assert (N : statusMemory (constructed w0 parent) = None)
    by (rewrite (constructed_eq _ _ H); reflexivity).
  revert N. generalize (statusMemory (constructed w0 parent)). intros o N.
  expose H.
  rewrite run_updatesOnly_status.
  change (statusMemory
            {| _lifetime := wired (seekingSupported w0) ls lp ld;
               _lifetimeDownload := d; _cachedMediaView := c |}) with ls.
  split; [reflexivity|].
  destruct (distinct_from_no_adjacent PlaybackStatus_eqb PlaybackStatus_eqb_eq
              (map mapStatus (filter trackFilter (map snd sts))) ls)
    as [Hn Hh].
  repeat split; assumption.
Qed.

Lemma to_int_fits z : fits_int z -> to_int z = z.
Proof.
  unfold fits_int, to_int. intros Hz.
  rewrite Z.mod_small; lia.
Qed.

Lemma distinct_from_incl {A} (eqb : A -> A -> bool) (l : list A) :
  forall last, incl (distinct_from eqb last l) l.
Proof.
  induction l as [|x rest IH]; intros last y Hy; cbn in *; [exact Hy|].
  destruct (changed eqb last x).
  - destruct Hy as [<-|Hy]; [now left|right; exact (IH _ _ Hy)].
  - right. exact (IH _ _ Hy).
Qed.

Lemma map_to_int_fits l : Forall fits_int l -> map to_int l = l.
Proof.
  induction 1 as [|x rest Hx _ IH]; cbn; [reflexivity|].
  rewrite IH, (to_int_fits x Hx). reflexivity.
Qed.


(** C10. The start handler does not consult the status pipeline's
    memory: every playback start of the managed type calls
    [setPlaybackStatus(Playing)] and leaves the memory as it was.  So
    a managed update that maps to Playing, followed by a playback
    start, makes the widget receive Playing twice in a row. *)
Theorem start_pushes_playing_regardless w0 parent evs w w1 st :
  init w0 parent = true ->
  trackFilter st = true ->
  mapStatus st = Playing ->
  let m := manager_after w0 parent evs in
  statusCalls (trace (step w (StartsPlay Song) m)) = [Playing]
  /\ statusMemory (after (step w (StartsPlay Song) m)) = statusMemory m
  /\ statusCalls
       (trace (run [(w1, Updated st); (w, StartsPlay Song)]
                 (constructed w0 parent)))
     = [Playing; Playing].
Proof.
  intros H Hf Hm m. subst m.
  pose proof is_type_type as T. unfold type in T.
  split; [|split].
  - expose H. destruct (seekingSupported w0); unfold step; cbn; rewrite T;
      reflexivity.
  - expose H. destruct (seekingSupported w0); unfold step; cbn; rewrite T;
      reflexivity.
  - rewrite (constructed_eq _ _ H). rewrite run_cons, step_Updated. tuples.
    rewrite run_cons. tuples.
    unfold keep, through. rewrite Hf, Hm. cbn [andb changed].
    destruct (seekingSupported w0); unfold step; cbn; rewrite T; reflexivity.
Qed.


Lemma firstResolution_nil s ws : firstResolution s [] ws = None.
Proof. induction ws; [reflexivity|exact IHws]. Qed.

Lemma step_DownloaderTaskFinished seeking ls lp ld d c w s :
  step w (DownloaderTaskFinished s)
    {| _lifetime := wired seeking ls lp ld;
       _lifetimeDownload := d; _cachedMediaView := c |}
  = (tt,
     {| _lifetime := wired seeking ls lp ld;
        _lifetimeDownload :=
          match resolvedFor w s d with Some _ => [] | None => d end;
        _cachedMediaView := c |},
     match resolvedFor w s d with
     | Some imagePtr => [Controls (SetThumbnail (original imagePtr))]
     | None => []
     end).
Proof.
  destruct seeking; unfold step, wired; cbn;
    unfold bind, ret, setLifetime; cbn;
    rewrite downloaderTaskFinished_eq;
    destruct (resolvedFor w s d); reflexivity.
Qed.

Lemma run_firings seeking s ws : forall ls lp ld d c,
  run (firings s ws)
    {| _lifetime := wired seeking ls lp ld;
       _lifetimeDownload := d; _cachedMediaView := c |}
  = (tt,
     {| _lifetime := wired seeking ls lp ld;
        _lifetimeDownload :=
          match firstResolution s d ws with Some _ => [] | None => d end;
        _cachedMediaView := c |},
     match firstResolution s d ws with
     | Some imagePtr => [Controls (SetThumbnail (original imagePtr))]
     | None => []
     end).
Proof.
  induction ws as [|w rest IH]; intros ls lp ld d c; [reflexivity|].
  unfold firings. cbn [map]. fold (firings s rest).
  rewrite run_cons, step_DownloaderTaskFinished. tuples.
  cbn [firstResolution].
  destruct (resolvedFor w s d) as [imagePtr|].
  - rewrite IH, firstResolution_nil. reflexivity.
  - rewrite IH. tuples. reflexivity.
Qed.

(** C5. A track change of the managed type first destroys
    [_lifetimeDownload], so its outcome does not depend on a pending
    fetch.  With no current track it does nothing else.  Otherwise it
    pushes performer and title of the composed name, and then: with a
    cover whose thumbnail is there, pushes it; with a cover not yet
    loaded, subscribes to the session's downloader and clears the
    thumbnail; with no cover, clears the thumbnail.  Over any run of
    downloader firings the pending subscription pushes the thumbnail at
    the first firing that finds it, once, and is gone from then on.
    An unlock with a current track runs the same handler after
    enabling the widget. *)
Theorem metadata_refresh w0 parent evs w s ws :
  init w0 parent = true ->
  let m := manager_after w0 parent evs in
  let cur := current w Song in
  let r := step w (TrackChanged Song) m in
  let fired := run (firings s ws) (after r) in
  r = step w (TrackChanged Song) (after (destroyLifetimeDownload m))
  /\ trace r
      = (if AudioMsgId_bool cur then
           Controls (SetArtist (snd (composedName (audio cur))))
           :: Controls (SetTitle (fst (composedName (audio cur))))
           :: match audio cur with
              | Some doc =>
                  if isSongWithCover doc then
                    ThumbnailWanted (createMediaView doc) (contextId cur)
                    :: match thumbnail w (createMediaView doc) with
                       | Some imagePtr =>
                           [Controls (SetThumbnail (original imagePtr))]
                       | None => [Controls ClearThumbnail]
                       end
                  else [Controls ClearThumbnail]
              | None => [Controls ClearThumbnail]
              end
         else [])
  /\ _lifetimeDownload (after r)
      = (if AudioMsgId_bool cur then
           match audio cur with
           | Some doc =>
               if isSongWithCover doc then
                 match thumbnail w (createMediaView doc) with
                 | Some _ => []
                 | None => [{| dl_session := session doc;
                               dl_view := createMediaView doc |}]
                 end
               else []
           | None => []
           end
         else [])
  /\ trace fired
      = match firstResolution s (_lifetimeDownload (after r)) ws with
        | Some imagePtr => [Controls (SetThumbnail (original imagePtr))]
        | None => []
        end
  /\ _lifetimeDownload (after fired)
      = match firstResolution s (_lifetimeDownload (after r)) ws with
        | Some _ => []
        | None => _lifetimeDownload (after r)
        end
  /\ step w (PasscodeLock false) m
      = (if AudioMsgId_bool cur then
           (tt, after r,
            Controls (SetEnabled true) :: Controls UpdateDisplay :: trace r)
         else (tt, m, [])).
Proof.
  intros H m cur r fired. subst fired r cur m.
  pose proof is_type_type as T. unfold type in T.
  pose proof (step_installed (seekingSupported w0) w (TrackChanged Song)
                (manager_after w0 parent evs)
                (manager_after_installed w0 parent evs H)) as I.
  split; [|split; [|split; [|split; [|split]]]].
  - expose H.
    destruct (seekingSupported w0); unfold step; cbn;
      unfold trackChanged, refresh, type; rewrite T; run_handler; try congruence; reflexivity.
  - clear I. expose H.
    destruct (seekingSupported w0); unfold step; cbn;
      unfold trackChanged, refresh, type; rewrite T; run_handler; try congruence; reflexivity.
  - clear I. expose H.
    destruct (seekingSupported w0); unfold step; cbn;
      unfold trackChanged, refresh, type; rewrite T; run_handler; try congruence; reflexivity.
  - revert I. generalize (after (step w (TrackChanged Song)
                                   (manager_after w0 parent evs))).
    intros [l d c] (ls & lp & ld & Hl). cbn in Hl. subst l.
    rewrite run_firings. reflexivity.
  - revert I. generalize (after (step w (TrackChanged Song)
                                   (manager_after w0 parent evs))).
    intros [l d c] (ls & lp & ld & Hl). cbn in Hl. subst l.
    rewrite run_firings. reflexivity.
  - clear I. expose H.
    destruct (seekingSupported w0); unfold step; cbn;
      unfold trackChanged, unlocked, refresh, type; rewrite T;
      run_handler; try congruence; reflexivity.
Qed.

(** C9, as the code has it.  [_cachedMediaView] is emptied only by a
    playback stop of the managed type.  A refresh appends the view it
    asks a thumbnail for, and no other event changes the list: a
    handle stays in it when its fetch resolves and when later
    refreshes start new fetches. *)
Theorem cached_views_kept_until_stop w0 parent evs w e :
  init w0 parent = true ->
  let m := manager_after w0 parent evs in
  _cachedMediaView (after (step w e m))
  = match e with
    | Stops t =>
        if AudioType_eq_dec t Song then [] else _cachedMediaView m
    | TrackChanged t =>
        _cachedMediaView m
        ++ (if AudioType_eq_dec t Song then requestedViews w else [])
    | PasscodeLock locked =>
        _cachedMediaView m ++ (if locked then [] else requestedViews w)
    | _ => _cachedMediaView m
    end.
Proof.
  intros H m. subst m. expose H.
  destruct e as [st|t|t|t|b|k|p|s].
  - rewrite step_Updated. reflexivity.
  - destruct (seekingSupported w0); unfold step; cbn; unfold is_type, type;
      destruct (AudioType_eq_dec t Song); reflexivity.
  - destruct (seekingSupported w0); unfold step; cbn; unfold is_type, type;
      destruct (AudioType_eq_dec t Song); reflexivity.
  - unfold requestedViews.
    destruct (seekingSupported w0); unfold step; cbn;
      unfold trackChanged, is_type, type;
      destruct (AudioType_eq_dec t Song) as [->|];
      unfold refresh; run_handler; try congruence;
      rewrite ?app_nil_r; reflexivity.
  - unfold requestedViews.
    destruct (seekingSupported w0), b; unfold step; cbn;
      unfold unlocked, refresh, type; run_handler; try congruence;
      rewrite ?app_nil_r; reflexivity.
  - destruct (seekingSupported w0), k; reflexivity.
  - destruct (seekingSupported w0); reflexivity.
  - rewrite step_DownloaderTaskFinished. reflexivity.
Qed.


(** ** Further properties of the wiring *)

Lemma run_app a : forall b m,
  run (a ++ b) m
  = (tt, after (run b (after (run a m))),
     trace (run a m) ++ trace (run b (after (run a m)))).
Proof.
  induction a as [|[w e] rest IH]; intros b m.
  - cbn [app]. change (run [] m) with (tt, m, @nil Effect). tuples.
    cbn [app]. destruct (run b m) as [[[] m'] t]. reflexivity.
  - cbn [app]. rewrite !run_cons, IH. tuples. rewrite app_assoc. reflexivity.
Qed.

Lemma step_wired_form seeking ls lp ld d c w e :
  exists ls' lp' ld' d' c',
    after (step w e {| _lifetime := wired seeking ls lp ld;
                       _lifetimeDownload := d; _cachedMediaView := c |})
    = {| _lifetime := wired seeking ls' lp' ld';
         _lifetimeDownload := d'; _cachedMediaView := c' |}.
Proof.
  assert (I : installed seeking
                (_lifetime {| _lifetime := wired seeking ls lp ld;
                              _lifetimeDownload := d; _cachedMediaView := c |}))
    by (exists ls, lp, ld; reflexivity).
  apply (step_installed seeking w e) in I. revert I.
  generalize (after (step w e {| _lifetime := wired seeking ls lp ld;
                                 _lifetimeDownload := d;
                                 _cachedMediaView := c |})).
  intros [l d' c'] (ls' & lp' & ld' & Hl). cbn in Hl. subst l.
  exists ls', lp', ld', d', c'. reflexivity.
Qed.

(** One event keeps the fetch invariant: at most one pending
    subscription, and its view is in [_cachedMediaView]. *)
Lemma step_fetch seeking ls lp ld d c w e :
  (List.length d <= 1)%nat ->
  incl (map dl_view d) c ->
  let m' := after (step w e {| _lifetime := wired seeking ls lp ld;
                               _lifetimeDownload := d;
                               _cachedMediaView := c |}) in
  (List.length (_lifetimeDownload m') <= 1)%nat
  /\ incl (map dl_view (_lifetimeDownload m')) (_cachedMediaView m').
Proof.
  intros Hl Hi. cbv zeta.
  assert (N : forall c', incl (map dl_view (@nil DownloadSubscription)) c')
    by (intros c' x []).
  assert (G : forall extra, incl (map dl_view d) (c ++ extra))
    by (intros extra x Hx; apply in_or_app; left; apply Hi, Hx).
  destruct e as [st|t|t|t|b|k|p|s].
  - rewrite step_Updated. tuples. cbn. split; assumption.
  - destruct seeking; unfold step; cbn; destruct (is_type t); cbn;
      split; auto.
  - destruct seeking; unfold step; cbn; destruct (is_type t); cbn;
      split; auto.
  - destruct seeking; unfold step; cbn; run_handler;
      split; auto;
      try (intros x [<-|[]]; apply in_or_app; right; left; reflexivity).
  - destruct seeking; unfold step; cbn; run_handler; split; auto;
      try (intros x [<-|[]]; apply in_or_app; right; left; reflexivity).
  - destruct seeking, k; cbn; split; assumption.
  - destruct seeking; cbn; split; assumption.
  - rewrite step_DownloaderTaskFinished. tuples. cbn.
    destruct (resolvedFor w s d); split; auto.
Qed.

Lemma run_fetch seeking evs : forall ls lp ld d c,
  (List.length d <= 1)%nat ->
  incl (map dl_view d) c ->
  let m' := after (run evs {| _lifetime := wired seeking ls lp ld;
                              _lifetimeDownload := d;
                              _cachedMediaView := c |}) in
  (List.length (_lifetimeDownload m') <= 1)%nat
  /\ incl (map dl_view (_lifetimeDownload m')) (_cachedMediaView m').
Proof.
  induction evs as [|[w e] rest IH]; intros ls lp ld d c Hl Hi; cbv zeta.
  - cbn. split; assumption.
  - rewrite run_cons. tuples.
    destruct (step_fetch seeking ls lp ld d c w e Hl Hi) as [Hl' Hi'].
    destruct (step_wired_form seeking ls lp ld d c w e)
      as (ls' & lp' & ld' & d' & c' & E).
    rewrite E in *. apply IH; assumption.
Qed.

(** X1. After a successful constructor and any history,
    [_lifetimeDownload] holds at most one subscription: every
    subscription to the downloader is preceded by
    [_lifetimeDownload.destroy()]. *)
Theorem at_most_one_pending_fetch w0 parent evs :
  init w0 parent = true ->
  (List.length (_lifetimeDownload (manager_after w0 parent evs)) <= 1)%nat.
Proof.
  intros H. unfold manager_after. rewrite (constructed_eq _ _ H).
  apply (run_fetch (seekingSupported w0) evs None None None [] []).
  - cbn. lia.
  - intros x [].
Qed.

(** X2. After a successful constructor and any history, the view
    captured by a pending downloader subscription is held in
    [_cachedMediaView]: the media view stays alive for as long as its
    thumbnail is awaited. *)
Theorem pending_view_is_cached w0 parent evs :
  init w0 parent = true ->
  incl (map dl_view (_lifetimeDownload (manager_after w0 parent evs)))
       (_cachedMediaView (manager_after w0 parent evs)).
Proof.
  intros H. unfold manager_after. rewrite (constructed_eq _ _ H).
  apply (run_fetch (seekingSupported w0) evs None None None [] []).
  - cbn. lia.
  - intros x [].
Qed.

Lemma is_type_false t : t <> Song -> is_type t = false.
Proof.
  intros H. unfold is_type, type. destruct (AudioType_eq_dec t Song);
    [contradiction|reflexivity].
Qed.

(** X3. Events of another track type are ignored: a player-state
    update whose track id is not a song, and a stop, a start or a
    track change of a type other than [Song], make no call and leave
    the manager as it was. *)
Theorem other_track_types_are_ignored w0 parent evs w t st :
  init w0 parent = true ->
  t <> Song ->
  AudioMsgId_type (id st) <> Song ->
  let m := manager_after w0 parent evs in
  step w (Updated st) m = (tt, m, [])
  /\ step w (Stops t) m = (tt, m, [])
  /\ step w (StartsPlay t) m = (tt, m, [])
  /\ step w (TrackChanged t) m = (tt, m, []).
Proof.
  intros H Ht Hst m. subst m. expose H.
  pose proof (is_type_false t Ht) as F.
  pose proof (is_type_false _ Hst) as G. fold (trackFilter st) in G.
  split; [|split; [|split]].
  - rewrite step_Updated. unfold keep, through. rewrite G. cbn.
    destruct (seekingSupported w0); reflexivity.
  - destruct (seekingSupported w0); unfold step; cbn; rewrite F; reflexivity.
  - destruct (seekingSupported w0); unfold step; cbn; rewrite F; reflexivity.
  - destruct (seekingSupported w0); unfold step; cbn; unfold trackChanged;
      rewrite F; reflexivity.
Qed.

(** What one event makes of [setEnabled], of player calls and, for
    events other than updates, of [setPlaybackStatus]. *)
Lemma step_calls seeking ls lp ld d c w e :
  let t := trace (step w e {| _lifetime := wired seeking ls lp ld;
                              _lifetimeDownload := d;
                              _cachedMediaView := c |}) in
  enabledCalls t
    = match e with
      | Stops t0 => if is_type t0 then [false] else []
      | StartsPlay t0 => if is_type t0 then [true] else []
      | PasscodeLock true => if maybeActiveSession w then [false] else []
      | PasscodeLock false =>
          if AudioMsgId_bool (current w Song) then [true] else []
      | _ => []
      end
  /\ Forall (fun call => playerType call = Song) (playerCalls t)
  /\ List.length (playerCalls t)
     = match e with
       | CommandRequest _ => 1%nat
       | SeekRequest _ => if seeking then 1%nat else 0%nat
       | _ => 0%nat
       end
  /\ ((forall st, e <> Updated st) ->
      statusCalls t
      = match e with
        | StartsPlay t0 => if is_type t0 then [Playing] else []
        | _ => []
        end).
Proof.
  cbv zeta. destruct e as [st|t0|t0|t0|b|k|p|s].
  - rewrite step_Updated. tuples. unfold through.
    destruct seeking;
      destruct (trackFilter st && changed PlaybackStatus_eqb ls (mapStatus st));
      destruct (trackFilter st && changed Z.eqb lp (position st));
      destruct (trackFilter st && changed Z.eqb ld (length st));
      cbn; repeat split; try constructor;
      intros Hne; exfalso; exact (Hne st eq_refl).
  - destruct seeking; unfold step; cbn; destruct (is_type t0); cbn;
      repeat split; constructor.
  - destruct seeking; unfold step; cbn; destruct (is_type t0); cbn;
      repeat split; constructor.
  - destruct seeking; unfold step; cbn; run_handler;
      repeat split; constructor.
  - destruct seeking, b; unfold step; cbn; run_handler;
      unfold type in *; try congruence; repeat split; constructor.
  - destruct seeking, k; cbn; repeat split; repeat constructor.
  - destruct seeking; cbn; repeat split; repeat constructor.
  - rewrite step_DownloaderTaskFinished. tuples.
    destruct (resolvedFor w s d); cbn; repeat split; constructor.
Qed.

Lemma keep_passed {A} (eqb : A -> A -> bool) (last : option A) (v : A) :
  (forall a b, eqb a b = true <-> a = b) ->
  keep eqb true last v = Some v.
Proof.
  intros Heq. unfold keep. cbn. destruct last as [l|]; cbn; [|reflexivity].
  destruct (eqb l v) eqn:E; cbn; [|reflexivity].
  apply Heq in E. subst. reflexivity.
Qed.

Lemma enabledCalls_app t1 t2 :
  enabledCalls (t1 ++ t2) = enabledCalls t1 ++ enabledCalls t2.
Proof. apply flat_map_app. Qed.

Lemma playerCalls_app t1 t2 :
  playerCalls (t1 ++ t2) = playerCalls t1 ++ playerCalls t2.
Proof. apply flat_map_app. Qed.

(** The same, over a history. *)
Lemma run_calls seeking evs : forall ls lp ld d c,
  let r := run evs {| _lifetime := wired seeking ls lp ld;
                      _lifetimeDownload := d; _cachedMediaView := c |} in
  enabledCalls (trace r)
    = flat_map
        (fun we =>
           match snd we with
           | Stops t0 => if is_type t0 then [false] else []
           | StartsPlay t0 => if is_type t0 then [true] else []
           | PasscodeLock true =>
               if maybeActiveSession (fst we) then [false] else []
           | PasscodeLock false =>
               if AudioMsgId_bool (current (fst we) Song) then [true] else []
           | _ => []
           end) evs
  /\ Forall (fun call => playerType call = Song) (playerCalls (trace r))
  /\ List.length (playerCalls (trace r))
     = (List.length (commandRequests evs)
        + (if seeking then List.length (seekRequests evs) else 0))%nat
  /\ statusMemory (after r)
     = fold_left (fun _ x => Some x) (map mapStatus (managedUpdates evs)) ls
  /\ (Forall (fun we => snd we <> StartsPlay Song) evs ->
      statusCalls (trace r)
      = distinct_from PlaybackStatus_eqb ls
          (map mapStatus (managedUpdates evs))).
Proof.
  induction evs as [|[w e] rest IH]; intros ls lp ld d c; cbv zeta.
  - cbn. destruct seeking; repeat split; constructor.
  - rewrite run_cons. tuples.
    rewrite enabledCalls_app, playerCalls_app, statusCalls_app, length_app.
    destruct (step_calls seeking ls lp ld d c w e) as (E1 & E2 & E3 & E4).
    assert (U : (exists st, e = Updated st) \/ (forall st, e <> Updated st)).
    { destruct e; try (right; intros; discriminate). left. eauto. }
    destruct U as [[st ->]|Hne].
    + revert E1 E2 E3. rewrite step_Updated. tuples. intros E1 E2 E3.
      destruct (IH (keep PlaybackStatus_eqb (trackFilter st) ls (mapStatus st))
                   (keep Z.eqb (trackFilter st) lp (position st))
                   (keep Z.eqb (trackFilter st) ld (length st)) d c)
        as (I1 & I2 & I3 & I4 & I5).
      destruct (update_trace_projections seeking
                  (through PlaybackStatus_eqb (trackFilter st) ls (mapStatus st))
                  (through Z.eqb (trackFilter st) lp (position st))
                  (through Z.eqb (trackFilter st) ld (length st)))
        as (S1 & _).
      rewrite E1, E3, I1, I3, I4, S1.
      unfold managedUpdates, commandRequests, seekRequests.
      cbn [flat_map snd fst app].
      fold (managedUpdates rest). fold (commandRequests rest).
      fold (seekRequests rest).
      split; [reflexivity|]. split; [apply Forall_app; split; assumption|].
      split; [reflexivity|]. split.
      * rewrite map_app, fold_left_app. f_equal.
        destruct (trackFilter st); cbn [map fold_left].
        -- apply keep_passed, PlaybackStatus_eqb_eq.
        -- reflexivity.
      * intros HF. inversion HF as [|? ? _ HF']; subst.
        rewrite (I5 HF'), distinct_from_step. reflexivity.
    + destruct (step_other seeking ls lp ld d c w e Hne)
        as (d' & c' & t & Hs & _).
      revert E1 E2 E3 E4. rewrite Hs. tuples. intros E1 E2 E3 E4.
      destruct (IH ls lp ld d' c') as (I1 & I2 & I3 & I4 & I5).
      rewrite E1, E3, I1, I3, I4.
      assert (M : managedUpdates ((w, e) :: rest) = managedUpdates rest).
      { unfold managedUpdates. cbn [flat_map snd].
        destruct e; try reflexivity. exfalso. exact (Hne _ eq_refl). }
      rewrite M.
      split; [destruct e as [| | | |[]| | |]; reflexivity|].
      split; [apply Forall_app; split; assumption|].
      split.
      * unfold commandRequests, seekRequests. cbn [flat_map snd].
        fold (commandRequests rest). fold (seekRequests rest).
        destruct e; try (exfalso; exact (Hne _ eq_refl));
          destruct seeking; cbn [List.length app]; lia.
      * split; [reflexivity|].
        intros HF. inversion HF as [|? ? Hh HF']; subst. cbn [snd] in Hh.
        rewrite (E4 Hne), (I5 HF').
        destruct e; try reflexivity.
        unfold is_type, type. destruct (AudioType_eq_dec t0 Song) as [->|];
          [exfalso; apply Hh; reflexivity|reflexivity].
Qed.

(** X4. De-duplication of the status is not disturbed by other
    events: over any history without a playback start of the managed
    type (commands, seeks, track changes, stops, lock changes and
    downloader firings may be interleaved at will),
    [setPlaybackStatus] receives the mapped statuses of the managed
    updates with repetitions removed, and never the same value twice in
    a row. *)
Theorem status_dedup_survives_other_events w0 parent evs :
  init w0 parent = true ->
  Forall (fun we => snd we <> StartsPlay Song) evs ->
  let pushed := statusCalls (trace (run evs (constructed w0 parent))) in
  pushed = distinct PlaybackStatus_eqb (map mapStatus (managedUpdates evs))
  /\ no_adjacent_equal pushed.
Proof.
  intros H HF pushed. subst pushed. rewrite (constructed_eq _ _ H).
  destruct (run_calls (seekingSupported w0) evs None None None [] [])
    as (_ & _ & _ & _ & E).
  rewrite (E HF). split; [reflexivity|].
  apply (distinct_from_no_adjacent PlaybackStatus_eqb PlaybackStatus_eqb_eq).
Qed.

(** X5. After any history the status pipeline remembers the mapped
    status of the most recent managed update, and nothing when there
    was none: playback starts, which push Playing themselves, and all
    other events leave that memory alone. *)
Theorem status_memory_is_latest_update w0 parent evs :
  init w0 parent = true ->
  statusMemory (manager_after w0 parent evs)
  = latest (map mapStatus (managedUpdates evs)).
Proof.
  intros H. unfold manager_after. rewrite (constructed_eq _ _ H).
  destruct (run_calls (seekingSupported w0) evs None None None [] [])
    as (_ & _ & _ & E & _).
  exact E.
Qed.

(** X6. The player is driven by requests from the controls only.
    Over any history every player call is on [AudioMsgId::Type::Song],
    and there is one call per command request plus, when seeking is
    supported, one per seek request: no event coming from the player,
    the lock or the downloader calls back into the player. *)
Theorem player_is_driven_by_requests_only w0 parent evs :
  init w0 parent = true ->
  let calls := playerCalls (trace (run evs (constructed w0 parent))) in
  Forall (fun call => playerType call = Song) calls
  /\ List.length calls
     = (List.length (commandRequests evs)
        + (if seekingSupported w0 then List.length (seekRequests evs)
           else 0))%nat.
Proof.
  intros H calls. subst calls. rewrite (constructed_eq _ _ H).
  destruct (run_calls (seekingSupported w0) evs None None None [] [])
    as (_ & F & L & _).
  split; assumption.
Qed.

(** X7. Over any history, [setEnabled] is called by four kinds of
    event only, each time with a value fixed by the event: [false] by
    a stop of the managed type, [true] by a start of the managed type,
    [false] by a change to locked while a session is active, [true] by
    a change to unlocked while the player has a current song.
    Updates, track changes, commands, seeks and downloader firings
    never enable or disable the widget. *)
Theorem enabling_follows_playback_and_lock w0 parent evs :
  init w0 parent = true ->
  enabledCalls (trace (run evs (constructed w0 parent)))
  = flat_map
      (fun we =>
         match snd we with
         | Stops t => if is_type t then [false] else []
         | StartsPlay t => if is_type t then [true] else []
         | PasscodeLock true =>
             if maybeActiveSession (fst we) then [false] else []
         | PasscodeLock false =>
             if AudioMsgId_bool (current (fst we) Song) then [true] else []
         | _ => []
         end) evs.
Proof.
  intros H. rewrite (constructed_eq _ _ H).
  destruct (run_calls (seekingSupported w0) evs None None None [] [])
    as (E & _).
  exact E.
Qed.

Lemma run_downloads_idle seeking ls lp ld c fs :
  run (downloads fs)
    {| _lifetime := wired seeking ls lp ld;
       _lifetimeDownload := []; _cachedMediaView := c |}
  = (tt, {| _lifetime := wired seeking ls lp ld;
            _lifetimeDownload := []; _cachedMediaView := c |}, []).
Proof.
  induction fs as [|[w s] rest IH]; [reflexivity|].
  unfold downloads. cbn [map fst snd]. fold (downloads rest).
  rewrite run_cons, step_DownloaderTaskFinished. tuples. cbn [resolvedFor].
  rewrite IH. reflexivity.
Qed.

(** X8. Once playback of the managed type has stopped or started, no
    downloader firing, of any session and in any number, makes a call:
    a thumbnail that was still awaited is never pushed after the stop
    or the start. *)
Theorem no_thumbnail_after_stop_or_start w0 parent evs w fs :
  init w0 parent = true ->
  let m := manager_after w0 parent evs in
  trace (run (downloads fs) (after (step w (Stops Song) m))) = []
  /\ trace (run (downloads fs) (after (step w (StartsPlay Song) m))) = [].
Proof.
  intros H m. subst m. expose H.
  pose proof is_type_type as T. unfold type in T.
  split.
  - pose proof (run_downloads_idle (seekingSupported w0) ls lp ld [] fs) as R.
    destruct (seekingSupported w0); unfold step; cbn; rewrite T; cbn;
      exact (f_equal (@trace _ unit) R).
  - pose proof (run_downloads_idle (seekingSupported w0) ls lp ld c fs) as R.
    destruct (seekingSupported w0); unfold step; cbn; rewrite T; cbn;
      exact (f_equal (@trace _ unit) R).
Qed.

(** X9. When seeking is supported and the positions and lengths of
    the managed updates of a history fit the [int] parameters of the
    two consumers, [setPosition] and [setDuration] receive exactly the
    reported values with repetitions removed, and never the same value
    twice in a row. *)
Theorem positions_within_int_are_deduplicated w0 parent evs :
  init w0 parent = true ->
  seekingSupported w0 = true ->
  Forall (fun st => fits_int (position st) /\ fits_int (length st))
         (managedUpdates evs) ->
  let r := run evs (constructed w0 parent) in
  positionCalls (trace r)
    = distinct Z.eqb (map position (managedUpdates evs))
  /\ no_adjacent_equal (positionCalls (trace r))
  /\ durationCalls (trace r)
    = distinct Z.eqb (map length (managedUpdates evs))
  /\ no_adjacent_equal (durationCalls (trace r)).
Proof.
  intros H Hs HF r. subst r. rewrite (constructed_eq _ _ H).
  destruct (run_seeking (seekingSupported w0) evs None None None [] [])
    as (P & D & _).
  rewrite Hs in P, D |- *. rewrite P, D. clear P D.
  assert (FP : Forall fits_int
                 (distinct Z.eqb (map position (managedUpdates evs)))).
  { apply Forall_forall. intros x Hx.
    apply distinct_from_incl, in_map_iff in Hx. destruct Hx as (st & <- & Hst).
    rewrite Forall_forall in HF. apply (HF st Hst). }
  assert (FD : Forall fits_int
                 (distinct Z.eqb (map length (managedUpdates evs)))).
  { apply Forall_forall. intros x Hx.
    apply distinct_from_incl, in_map_iff in Hx. destruct Hx as (st & <- & Hst).
    rewrite Forall_forall in HF. apply (HF st Hst). }
  unfold distinct in *.
  rewrite (map_to_int_fits _ FP), (map_to_int_fits _ FD).
  repeat split;
    apply (distinct_from_no_adjacent Z.eqb Z.eqb_eq).
Qed.

Lemma firstResolution_origin s subs ws imagePtr :
  firstResolution s subs ws = Some imagePtr ->
  exists w' d, In w' ws /\ In d subs /\ dl_session d = s
               /\ thumbnail w' (dl_view d) = Some imagePtr.
Proof.
  induction ws as [|w rest IH]; cbn; [discriminate|].
  destruct (resolvedFor w s subs) as [i|] eqn:R.
  - intros E. injection E as ->. clear IH.
    induction subs as [|x more IHs]; cbn in R; [discriminate|].
    destruct (Session_eq_dec (dl_session x) s) as [Es|].
    + destruct (thumbnail w (dl_view x)) as [j|] eqn:Tx.
      * injection R as ->. exists w, x. cbn. auto.
      * destruct (IHs R) as (w' & d & Hw & Hd & Hse & Ht).
        exists w', d. cbn. auto.
    + destruct (IHs R) as (w' & d & Hw & Hd & Hse & Ht).
      exists w', d. cbn. auto.
  - intros E. destruct (IH E) as (w' & d & Hw & Hd & Hse & Ht).
    exists w', d. auto.
Qed.

Lemma refresh_pending_views seeking ls lp ld d c w :
  incl (map dl_view
          (_lifetimeDownload
             (after (step w (TrackChanged Song)
                       {| _lifetime := wired seeking ls lp ld;
                          _lifetimeDownload := d;
                          _cachedMediaView := c |}))))
       (requestedViews w).
Proof.
  pose proof is_type_type as T. unfold type in T.
  unfold requestedViews.
  destruct seeking; unfold step; cbn; unfold trackChanged, refresh, type;
    rewrite T; run_handler; try congruence;
    try (intros x []); intros x [<-|[]]; left; reflexivity.
Qed.

(** X10. A refresh supersedes whatever fetch was pending.  After a
    track change of the managed type in world [w], whatever the
    history before it, a run of downloader firings either makes no
    call or makes one [setThumbnail] call, with the image that a view
    requested by this very refresh shows at one of the firings: the
    cover of an earlier track is never delivered. *)
Theorem only_the_latest_fetch_delivers w0 parent evs w s ws :
  init w0 parent = true ->
  let m := manager_after w0 parent evs in
  let fired := run (firings s ws) (after (step w (TrackChanged Song) m)) in
  trace fired = []
  \/ exists w' view imagePtr,
       In w' ws
       /\ In view (requestedViews w)
       /\ thumbnail w' view = Some imagePtr
       /\ trace fired = [Controls (SetThumbnail (original imagePtr))].
Proof.
  intros H m fired. subst fired m. expose H.
  pose proof (refresh_pending_views (seekingSupported w0) ls lp ld d c w) as P.
  destruct (step_wired_form (seekingSupported w0) ls lp ld d c w
              (TrackChanged Song))
    as (ls' & lp' & ld' & d' & c' & E).
  rewrite E in *. cbn [_lifetimeDownload] in P.
  rewrite run_firings. tuples.
  destruct (firstResolution s d' ws) as [imagePtr|] eqn:R; [|now left].
  right. destruct (firstResolution_origin s d' ws imagePtr R)
    as (w' & x & Hw & Hx & _ & Ht).
  exists w', (dl_view x), imagePtr. repeat split; try assumption.
  apply P, in_map, Hx.
Qed.

(** X11. A change to locked while no session is active is ignored:
    no call is made and the manager is left as it was. *)
Theorem lock_without_session_is_ignored w0 parent evs w :
  init w0 parent = true ->
  maybeActiveSession w = false ->
  let m := manager_after w0 parent evs in
  step w (PasscodeLock true) m = (tt, m, []).
Proof.
  intros H Hs m. subst m. expose H.
  destruct (seekingSupported w0); unfold step; cbn;
    unfold lock; rewrite Hs; reflexivity.
Qed.

(** The views one event adds to [_cachedMediaView], unless it is a
    stop of the managed type. *)
Lemma step_cache seeking ls lp ld d c w e :
  e <> Stops Song ->
  _cachedMediaView
    (after (step w e {| _lifetime := wired seeking ls lp ld;
                        _lifetimeDownload := d; _cachedMediaView := c |}))
  = c ++ match e with
         | TrackChanged t => if is_type t then requestedViews w else []
         | PasscodeLock false => requestedViews w
         | _ => []
         end.
Proof.
  intros Hne. destruct e as [st|t|t|t|b|k|p|s].
  - rewrite step_Updated. tuples. cbn. rewrite app_nil_r. reflexivity.
  - destruct seeking; unfold step; cbn; unfold is_type, type;
      (destruct (AudioType_eq_dec t Song) as [->|];
       [exfalso; apply Hne; reflexivity|]); cbn; rewrite app_nil_r;
      reflexivity.
  - destruct seeking; unfold step; cbn; destruct (is_type t); cbn;
      rewrite app_nil_r; reflexivity.
  - unfold requestedViews.
    destruct seeking; unfold step; cbn; unfold trackChanged, is_type, type;
      destruct (AudioType_eq_dec t Song) as [->|];
      unfold refresh; run_handler; try congruence;
      rewrite ?app_nil_r; reflexivity.
  - unfold requestedViews.
    destruct seeking, b; unfold step; cbn;
      unfold unlocked, refresh, type; run_handler; try congruence;
      rewrite ?app_nil_r; reflexivity.
  - destruct seeking, k; cbn; rewrite app_nil_r; reflexivity.
  - destruct seeking; cbn; rewrite app_nil_r; reflexivity.
  - rewrite step_DownloaderTaskFinished. tuples. cbn. rewrite app_nil_r.
    reflexivity.
Qed.

Lemma run_cache seeking evs : forall ls lp ld d c,
  Forall (fun we => snd we <> Stops Song) evs ->
  _cachedMediaView
    (after (run evs {| _lifetime := wired seeking ls lp ld;
                       _lifetimeDownload := d; _cachedMediaView := c |}))
  = c ++ flat_map
           (fun we =>
              match snd we with
              | TrackChanged t =>
                  if is_type t then requestedViews (fst we) else []
              | PasscodeLock false => requestedViews (fst we)
              | _ => []
              end) evs.
Proof.
  induction evs as [|[w e] rest IH]; intros ls lp ld d c HF.
  - cbn. rewrite app_nil_r. reflexivity.
  - inversion HF as [|? ? Hh HF']; subst. cbn [snd] in Hh.
    rewrite run_cons. tuples.
    pose proof (step_cache seeking ls lp ld d c w e Hh) as S.
    destruct (step_wired_form seeking ls lp ld d c w e)
      as (ls' & lp' & ld' & d' & c' & E).
    rewrite E in *. cbn [_cachedMediaView] in S. subst c'.
    rewrite (IH _ _ _ _ _ HF'). cbn [flat_map fst snd].
    rewrite <- app_assoc. reflexivity.
Qed.

(** X12. While playback of the managed type does not stop,
    [_cachedMediaView] only accumulates: after a history without such a
    stop it holds, in order, one view for every track change of the
    managed type and every unlock that found a current song with a
    cover, the same view again if the same track is refreshed twice. *)
Theorem cached_views_accumulate w0 parent evs :
  init w0 parent = true ->
  Forall (fun we => snd we <> Stops Song) evs ->
  _cachedMediaView (manager_after w0 parent evs)
  = flat_map
      (fun we =>
         match snd we with
         | TrackChanged t => if is_type t then requestedViews (fst we) else []
         | PasscodeLock false => requestedViews (fst we)
         | _ => []
         end) evs.
Proof.
  intros H HF. unfold manager_after. rewrite (constructed_eq _ _ H).
  rewrite (run_cache (seekingSupported w0) evs None None None [] [] HF).
  reflexivity.
Qed.

End Properties.

(** ** The theorems at work on the concrete collaborators *)

Lemma init_failure_is_inert_witness :
  init Scenario.broken tt = false
  /\ trace (SystemMediaControlsManager Scenario.broken tt fresh)
     = [Controls (Init tt); Log failed_to_init]
  /\ trace (run Scenario.busy (constructed Scenario.broken tt)) = []
  /\ _lifetime (manager_after Scenario.broken tt Scenario.busy) = [].
Proof.
  split; [reflexivity|].
  destruct (init_failure_is_inert Scenario.broken tt eq_refl) as [A B].
  destruct (B Scenario.busy) as (B1 & B2 & _).
  split; [exact A|]. split; [exact B1|exact B2].
Defined.

Lemma command_routing_witness :
  init Scenario.here tt = true
  /\ trace (step Scenario.here (CommandRequest Command.Next)
              (manager_after Scenario.here tt Scenario.busy))
     = [Player (next Sample.Music)].
Proof.
  split; [reflexivity|].
  destruct (command_routing Scenario.here tt Scenario.busy Scenario.here eq_refl)
    as (_ & _ & _ & N & _).
  rewrite N. reflexivity.
Defined.

Lemma status_updates_are_deduplicated_witness :
  init Scenario.here tt = true
  /\ statusCalls
       (trace (run (updatesOnly Scenario.updates)
                 (manager_after Scenario.here tt [])))
     = [Playing; Paused; Playing].
Proof.
  split; [reflexivity|].
  destruct (status_updates_are_deduplicated Scenario.here tt []
              Scenario.updates eq_refl) as (E & _).
  rewrite E. reflexivity.
Defined.

Lemma start_and_stop_transitions_witness :
  init Scenario.here tt = true
  /\ trace (step Scenario.here (Stops Song)
              (manager_after Scenario.here tt Scenario.busy))
     = [Controls (SetEnabled false); Controls ClearMetadata]
  /\ controlsCalls
       (trace (step Scenario.here (StartsPlay Song)
                 (manager_after Scenario.here tt Scenario.busy)))
     = [SetEnabled true; SetIsNextEnabled true; SetIsPreviousEnabled false;
        SetIsPlayPauseEnabled true; SetIsStopEnabled true;
        SetPlaybackStatus Playing; UpdateDisplay].
Proof.
  split; [reflexivity|].
  destruct (start_and_stop_transitions Scenario.here tt Scenario.busy
              Scenario.here eq_refl) as (A & _ & _ & B & _).
  split; [exact B|]. rewrite A. reflexivity.
Defined.

Lemma metadata_refresh_witness :
  init Scenario.here tt = true
  /\ trace (step Scenario.here (TrackChanged Song)
              (manager_after Scenario.here tt []))
     = [Controls (SetArtist "Performer"); Controls (SetTitle "Title");
        ThumbnailWanted Scenario.cover_song 7%nat; Controls ClearThumbnail]
  /\ trace (run (firings 0%nat [Scenario.here; Scenario.loaded; Scenario.loaded])
              (after (step Scenario.here (TrackChanged Song)
                        (manager_after Scenario.here tt []))))
     = [Controls (SetThumbnail 42%nat)]
  /\ trace (step Scenario.loaded (TrackChanged Song)
              (manager_after Scenario.here tt []))
     = [Controls (SetArtist "Performer"); Controls (SetTitle "Title");
        ThumbnailWanted Scenario.cover_song 7%nat;
        Controls (SetThumbnail 42%nat)]
  /\ trace (step Scenario.plain (TrackChanged Song)
              (manager_after Scenario.here tt []))
     = [Controls (SetArtist "Performer"); Controls (SetTitle "Plain");
        Controls ClearThumbnail]
  /\ trace (step Scenario.idle (TrackChanged Song)
              (manager_after Scenario.here tt Scenario.requested))
     = []
  /\ _lifetimeDownload
       (after (step Scenario.idle (TrackChanged Song)
                 (manager_after Scenario.here tt Scenario.requested)))
     = [].
Proof.
  split; [reflexivity|].
  destruct (metadata_refresh Scenario.here tt [] Scenario.here 0%nat
              [Scenario.here; Scenario.loaded; Scenario.loaded] eq_refl)
    as (_ & A & _ & B & _).
  destruct (metadata_refresh Scenario.here tt [] Scenario.loaded 0%nat
              [] eq_refl) as (_ & L & _).
  destruct (metadata_refresh Scenario.here tt [] Scenario.plain 0%nat
              [] eq_refl) as (_ & P & _).
  destruct (metadata_refresh Scenario.here tt Scenario.requested Scenario.idle
              0%nat [] eq_refl) as (_ & N & D & _).
  split; [rewrite A; reflexivity|]. split; [rewrite B; reflexivity|].
  split; [rewrite L; reflexivity|]. split; [rewrite P; reflexivity|].
  split; [rewrite N; reflexivity|]. rewrite D. reflexivity.
Defined.



Lemma unlock_enables_then_refreshes_witness :
  init Scenario.here tt = true
  /\ AudioMsgId_bool (current Scenario.here Song) = true
  /\ trace (step Scenario.here (PasscodeLock false)
              (manager_after Scenario.here tt []))
     = [Controls (SetEnabled true); Controls UpdateDisplay;
        Controls (SetArtist "Performer"); Controls (SetTitle "Title");
        ThumbnailWanted Scenario.cover_song 7%nat; Controls ClearThumbnail].
Proof.
  split; [reflexivity|]. split; [reflexivity|].
  rewrite (unlock_enables_then_refreshes Scenario.here tt [] Scenario.here
             eq_refl eq_refl).
  reflexivity.
Defined.

Lemma lock_disables_widget_witness :
  init Scenario.here tt = true
  /\ maybeActiveSession Scenario.here = true
  /\ trace (step Scenario.here (PasscodeLock true)
              (manager_after Scenario.here tt Scenario.busy))
     = [Controls (SetEnabled false)].
Proof.
  split; [reflexivity|]. split; [reflexivity|].
  rewrite (lock_disables_widget Scenario.here tt Scenario.busy Scenario.here
             eq_refl eq_refl).
  reflexivity.
Defined.

(** C9, as the claim states it, fails.  A track with a cover that is
    not loaded becomes current; the downloader then fires with the
    cover loaded.  The fetch has resolved and its subscription is
    gone, yet [_cachedMediaView] still holds the view; a second track
    change adds a view and keeps the first. *)
Lemma cached_view_outlives_its_fetch :
  _cachedMediaView (manager_after Scenario.here tt Scenario.requested)
    = [Scenario.cover_song]
  /\ trace (step Scenario.loaded (DownloaderTaskFinished 0%nat)
              (manager_after Scenario.here tt Scenario.requested))
     = [Controls (SetThumbnail 42%nat)]
  /\ _lifetimeDownload (manager_after Scenario.here tt Scenario.resolved) = []
  /\ _cachedMediaView (manager_after Scenario.here tt Scenario.resolved)
     = [Scenario.cover_song]
  /\ _cachedMediaView (manager_after Scenario.here tt Scenario.superseded)
     = [Scenario.cover_song; Scenario.other_song].
Proof. repeat split. Qed.

Lemma cached_views_kept_until_stop_witness :
  init Scenario.here tt = true
  /\ _cachedMediaView
       (after (step Scenario.loaded (DownloaderTaskFinished 0%nat)
                 (manager_after Scenario.here tt
                    Scenario.requested)))
     = [Scenario.cover_song]
  /\ _cachedMediaView
       (after (step Scenario.here (Stops Song)
                 (manager_after Scenario.here tt
                    Scenario.requested)))
     = [].
Proof.
  split; [reflexivity|]. split.
  - rewrite (cached_views_kept_until_stop Scenario.here tt
               Scenario.requested Scenario.loaded
               (@DownloaderTaskFinished sample 0%nat) eq_refl).
    reflexivity.
  - rewrite (cached_views_kept_until_stop Scenario.here tt
               Scenario.requested Scenario.here
               (Stops Song) eq_refl).
    reflexivity.
Defined.

Lemma start_pushes_playing_regardless_witness :
  init Scenario.here tt = true
  /\ trackFilter (Scenario.playing 0 100) = true
  /\ mapStatus (Scenario.playing 0 100) = Playing
  /\ statusCalls
       (trace (run [(Scenario.here, Updated (Scenario.playing 0 100));
                    (Scenario.here, StartsPlay Song)]
                 (constructed Scenario.here tt)))
     = [Playing; Playing].
Proof.
  split; [reflexivity|]. split; [reflexivity|]. split; [reflexivity|].
  exact (proj2 (proj2 (start_pushes_playing_regardless Scenario.here tt []
                         Scenario.here Scenario.here (Scenario.playing 0 100)
                         eq_refl eq_refl eq_refl))).
Defined.

(** ** The further properties at work *)

Lemma at_most_one_pending_fetch_witness :
  init Scenario.here tt = true
  /\ (List.length
        (_lifetimeDownload (manager_after Scenario.here tt Scenario.superseded))
      <= 1)%nat.
Proof.
  split; [reflexivity|].
  exact (at_most_one_pending_fetch Scenario.here tt Scenario.superseded eq_refl).
Defined.

Lemma pending_view_is_cached_witness :
  init Scenario.here tt = true
  /\ incl (map dl_view
             (_lifetimeDownload
                (manager_after Scenario.here tt Scenario.superseded)))
          (_cachedMediaView
             (manager_after Scenario.here tt Scenario.superseded)).
Proof.
  split; [reflexivity|].
  exact (pending_view_is_cached Scenario.here tt Scenario.superseded eq_refl).
Defined.

Lemma other_track_types_are_ignored_witness :
  init Scenario.here tt = true
  /\ Sample.VoiceMessage <> Song
  /\ AudioMsgId_type (id (Scenario.voice 5 5)) <> Song
  /\ trace (step Scenario.here (Updated (Scenario.voice 5 5))
              (manager_after Scenario.here tt Scenario.busy)) = []
  /\ trace (step Scenario.here (TrackChanged Sample.VoiceMessage)
              (manager_after Scenario.here tt Scenario.busy)) = [].
Proof.
  assert (N : Sample.VoiceMessage <> Song) by (intros E; discriminate E).
  split; [reflexivity|]. split; [exact N|]. split; [exact N|].
  destruct (other_track_types_are_ignored Scenario.here tt Scenario.busy
              Scenario.here Sample.VoiceMessage (Scenario.voice 5 5)
              eq_refl N N) as (U & _ & _ & T).
  split; [rewrite U; reflexivity|].
  exact (f_equal (@trace _ unit) T).
Defined.

Lemma status_dedup_survives_other_events_witness :
  init Scenario.here tt = true
  /\ Forall (fun we => snd we <> StartsPlay Song) Further.calm
  /\ statusCalls (trace (run Further.calm (constructed Scenario.here tt)))
     = [Playing; Paused].
Proof.
  assert (F : Forall (fun we => snd we <> StartsPlay Song) Further.calm)
    by (repeat constructor; intros E; discriminate E).
  split; [reflexivity|]. split; [exact F|].
  destruct (status_dedup_survives_other_events Scenario.here tt Further.calm
              eq_refl F) as [E _].
  rewrite E. reflexivity.
Defined.

Lemma status_memory_is_latest_update_witness :
  init Scenario.here tt = true
  /\ statusMemory (manager_after Scenario.here tt Scenario.busy) = Some Paused.
Proof.
  split; [reflexivity|].
  rewrite (status_memory_is_latest_update Scenario.here tt Scenario.busy eq_refl).
  reflexivity.
Defined.

Lemma player_is_driven_by_requests_only_witness :
  init Scenario.here tt = true
  /\ List.length
       (playerCalls (trace (run Scenario.busy (constructed Scenario.here tt))))
     = 2%nat
  /\ init Scenario.unsupported tt = true
  /\ List.length
       (playerCalls
          (trace (run Scenario.busy (constructed Scenario.unsupported tt))))
     = 1%nat.
Proof.
  split; [reflexivity|].
  destruct (player_is_driven_by_requests_only Scenario.here tt Scenario.busy
              eq_refl) as [_ L].
  destruct (player_is_driven_by_requests_only Scenario.unsupported tt
              Scenario.busy eq_refl) as [_ L'].
  split; [rewrite L; reflexivity|]. split; [reflexivity|].
  rewrite L'. reflexivity.
Defined.

Lemma enabling_follows_playback_and_lock_witness :
  init Scenario.here tt = true
  /\ enabledCalls (trace (run Scenario.busy (constructed Scenario.here tt)))
     = [true; false; true].
Proof.
  split; [reflexivity|].
  rewrite (enabling_follows_playback_and_lock Scenario.here tt Scenario.busy
             eq_refl).
  reflexivity.
Defined.

Lemma no_thumbnail_after_stop_or_start_witness :
  init Scenario.here tt = true
  /\ _lifetimeDownload (manager_after Scenario.here tt Scenario.requested)
     = [{| dl_session := 0%nat; dl_view := Scenario.cover_song |}]
  /\ trace (run (downloads Further.late)
              (after (step Scenario.here (Stops Song)
                        (manager_after Scenario.here tt Scenario.requested))))
     = [].
Proof.
  split; [reflexivity|]. split; [reflexivity|].
  exact (proj1 (no_thumbnail_after_stop_or_start Scenario.here tt
                  Scenario.requested Scenario.here Further.late eq_refl)).
Defined.

Lemma positions_within_int_are_deduplicated_witness :
  init Scenario.here tt = true
  /\ seekingSupported Scenario.here = true
  /\ Forall (fun st => fits_int (position st) /\ fits_int (length st))
            (managedUpdates Scenario.busy)
  /\ positionCalls (trace (run Scenario.busy (constructed Scenario.here tt)))
     = [0%Z; 1%Z]
  /\ durationCalls (trace (run Scenario.busy (constructed Scenario.here tt)))
     = [100%Z].
Proof.
  assert (F : Forall (fun st => fits_int (position st) /\ fits_int (length st))
                (managedUpdates Scenario.busy))
    by (repeat constructor; unfold fits_int; cbn; lia).
  split; [reflexivity|]. split; [reflexivity|]. split; [exact F|].
  destruct (positions_within_int_are_deduplicated Scenario.here tt
              Scenario.busy eq_refl eq_refl F) as (P & _ & D & _).
  split; [rewrite P; reflexivity|]. rewrite D. reflexivity.
Defined.

Lemma only_the_latest_fetch_delivers_witness :
  init Scenario.here tt = true
  /\ (trace (run (firings 0%nat [Scenario.loaded])
               (after (step Scenario.elsewhere (TrackChanged Song)
                         (manager_after Scenario.here tt Scenario.requested))))
      = []
      \/ exists w' view imagePtr,
           In w' [Scenario.loaded]
           /\ In view (requestedViews Scenario.elsewhere)
           /\ thumbnail w' view = Some imagePtr
           /\ trace (run (firings 0%nat [Scenario.loaded])
                       (after (step Scenario.elsewhere (TrackChanged Song)
                                 (manager_after Scenario.here tt
                                    Scenario.requested))))
              = [Controls (SetThumbnail (original imagePtr))]).
Proof.
  split; [reflexivity|].
  exact (only_the_latest_fetch_delivers Scenario.here tt Scenario.requested
           Scenario.elsewhere 0%nat [Scenario.loaded] eq_refl).
Defined.

Lemma lock_without_session_is_ignored_witness :
  init Scenario.here tt = true
  /\ maybeActiveSession Further.signed_out = false
  /\ trace (step Further.signed_out (PasscodeLock true)
              (manager_after Scenario.here tt Scenario.busy))
     = [].
Proof.
  split; [reflexivity|]. split; [reflexivity|].
  rewrite (lock_without_session_is_ignored Scenario.here tt Scenario.busy
             Further.signed_out eq_refl eq_refl).
  reflexivity.
Defined.

Lemma cached_views_accumulate_witness :
  init Scenario.here tt = true
  /\ Forall (fun we => snd we <> Stops Song) Scenario.busy
  /\ _cachedMediaView (manager_after Scenario.here tt Scenario.busy)
     = [Scenario.cover_song; Scenario.cover_song].
Proof.
  assert (F : Forall (fun we => snd we <> Stops Song) Scenario.busy)
    by (repeat constructor; intros E; discriminate E).
  split; [reflexivity|]. split; [exact F|].
  rewrite (cached_views_accumulate Scenario.here tt Scenario.busy eq_refl F).
  reflexivity.
Defined.
